(** * Rings of integers modulo n: a shallow embedding of [modular_arithmetic.py]

    Python integers are unbounded, so they are modelled by [Z]; Python's
    [//] and [%] are floor division and its remainder, which is what
    [Z.div] and [Z.modulo] compute for a divisor that is not zero.
    Dictionaries keep their insertion order and are iterated in that order,
    so [prime_factors] is an association list.  Exceptions, and loops that
    may not finish, are carried by the [outcome] type.  Euler's theorem and
    the totient come from MathComp, through the module [NatBridge]. *)

From Stdlib Require Import String ZArith Zdivisibility QArith Qfield List Sorted Lia Bool.
From mathcomp Require ssreflect ssrfun ssrbool eqtype ssrnat seq div prime bigop cyclic.
Import ListNotations.
Local Open Scope Z_scope.

(** ** Outcomes of a Python computation *)

Inductive exn : Type :=
| ValueError (msg : string)
| AssertionError (msg : option string)   (* [assert c] has no message, [assert c, m] has one *)
| ZeroDivisionError
| KeyError (key : Z)
| NotAnInteger.   (* [b ** e] with [e < 0] is a float in Python: outside this model *)

Inductive outcome (A : Type) : Type :=
| Return (a : A)
| Raise (e : exn)
| Timeout.        (* a [while] loop used up its iteration budget *)

Arguments Return {A} a.
Arguments Raise {A} e.
Arguments Timeout {A}.

Definition bind {A B : Type} (c : outcome A) (k : A -> outcome B) : outcome B :=
  match c with
  | Return a => k a
  | Raise e => Raise e
  | Timeout => Timeout
  end.

Notation "x <- c ;; k" := (bind c (fun x => k))
  (at level 61, c at next level, right associativity).
Notation "' pat <- c ;; k" := (bind c (fun x => match x with pat => k end))
  (at level 61, pat pattern, c at next level, right associativity).

Definition assert_ (c : bool) (msg : option string) : outcome unit :=
  if c then Return tt else Raise (AssertionError msg).

(** Integer operators that can fail. *)

Definition divmod (a b : Z) : outcome (Z * Z) :=
  if b =? 0 then Raise ZeroDivisionError else Return (a / b, a mod b).

Definition floordiv (a b : Z) : outcome Z :=
  if b =? 0 then Raise ZeroDivisionError else Return (a / b).

Definition pymod (a b : Z) : outcome Z :=
  if b =? 0 then Raise ZeroDivisionError else Return (a mod b).

Definition pypow (b e : Z) : outcome Z :=
  if e <? 0 then Raise (if b =? 0 then ZeroDivisionError else NotAnInteger)
  else Return (b ^ e).

(** Left fold with failure: the body of a [for] loop over a list, and
    [functools.reduce]. *)

Fixpoint foldM {A B : Type} (f : A -> B -> outcome A) (l : list B) (a : A) : outcome A :=
  match l with
  | [] => Return a
  | b :: l' => a' <- f a b ;; foldM f l' a'
  end.

(** ** Dictionaries with integer keys, in insertion order *)

Definition dict : Type := list (Z * Z).

(* d[k] = v : overwrite in place, or append a new key *)
Fixpoint dict_set (d : dict) (k v : Z) : dict :=
  match d with
  | [] => [(k, v)]
  | (k', v') :: d' =>
      if k' =? k then (k', v) :: d' else (k', v') :: dict_set d' k v
  end.

(* d[k] *)
Fixpoint dict_get (d : dict) (k : Z) : outcome Z :=
  match d with
  | [] => Raise (KeyError k)
  | (k', v') :: d' => if k' =? k then Return v' else dict_get d' k
  end.

Definition keys (d : dict) : list Z := map fst d.
Definition items (d : dict) : list (Z * Z) := d.

(** ** class ModRing *)

Module ModRing.

Record t : Type := mk { n : Z; prime_factors : dict; phi : Z }.

(* The loop
     while remainder == 0:
         z = quotient
         prime_factors[m] += 1
         quotient, remainder = divmod(z, m)
   on the state (z, prime_factors, quotient, remainder). *)
Fixpoint while_divides (fuel : nat) (m z : Z) (prime_factors : dict)
    (quotient remainder : Z) : outcome (Z * dict * Z * Z) :=
  if remainder =? 0 then
    match fuel with
    | O => Timeout
    | S fuel' =>
        let z := quotient in
        c <- dict_get prime_factors m ;;
        let prime_factors := dict_set prime_factors m (c + 1) in
        '(quotient, remainder) <- divmod z m ;;
        while_divides fuel' m z prime_factors quotient remainder
    end
  else Return (z, prime_factors, quotient, remainder).

(* The body shared by the test of 2 and the test of an odd m:
     quotient, remainder = divmod(z, m)
     if remainder == 0:
         prime_factors[m] = 0
         while remainder == 0: ... *)
Definition try_divisor (budget : nat) (m z : Z) (prime_factors : dict)
    : outcome (Z * dict) :=
  '(quotient, remainder) <- divmod z m ;;
  if remainder =? 0 then
    let prime_factors := dict_set prime_factors m 0 in
    '(z, prime_factors, _, _) <-
       while_divides budget m z prime_factors quotient remainder ;;
    Return (z, prime_factors)
  else Return (z, prime_factors).

(* The loop
     while m * m <= z:
         <try_divisor m>
         m += 2
   on the state (m, z, prime_factors); [budget] is what each inner loop gets. *)
Fixpoint while_odd (budget fuel : nat) (m z : Z) (prime_factors : dict)
    : outcome (Z * dict) :=
  if m * m <=? z then
    match fuel with
    | O => Timeout
    | S fuel' =>
        '(z, prime_factors) <- try_divisor budget m z prime_factors ;;
        while_odd budget fuel' (m + 2) z prime_factors
    end
  else Return (z, prime_factors).

(* Every loop of one call may run [fuel] iterations. *)
Definition factorize (fuel : nat) (n : Z) : outcome dict :=
  let prime_factors := [] in
  let z := n in
  '(z, prime_factors) <- try_divisor fuel 2 z prime_factors ;;
  let m := 3 in
  '(z, prime_factors) <- while_odd fuel fuel m z prime_factors ;;
  if negb (z =? 1) then Return (dict_set prime_factors z 1)
  else Return prime_factors.

(* functools.reduce(lambda x, y: x // y * (y - 1), chain([n], keys)) *)
Definition compute_phi (n : Z) (prime_factors : dict) : outcome Z :=
  foldM (fun x y => q <- floordiv x y ;; Return (q * (y - 1)))
        (keys prime_factors) n.

Definition __init__ (fuel : nat) (n : Z) : outcome t :=
  prime_factors <- factorize fuel n ;;
  phi <- compute_phi n prime_factors ;;
  Return (mk n prime_factors phi).

End ModRing.

(** A reference to a ring object.  [addr] is the identity of the object,
    which is what Python's [is] compares; two constructor calls give two
    addresses, whatever the moduli. *)
Record ModRingRef : Type := { addr : nat; obj : ModRing.t }.

Definition ring_is (r1 r2 : ModRingRef) : bool := Nat.eqb (addr r1) (addr r2).

(* ModRing(n), the new object being placed at address [a] *)
Definition ModRing_new (a : nat) (fuel : nat) (n : Z) : outcome ModRingRef :=
  r <- ModRing.__init__ fuel n ;; Return {| addr := a; obj := r |}.

(** ** class ModInt *)

Module ModInt.

Record t : Type := mk { n : Z; value : Z; ring : ModRingRef }.

(* What a method may receive as its other operand. *)
Inductive operand : Type :=
| Elt (x : t)
| Int (z : Z)
| None_.

Definition __init__ (value : Z) (ring : ModRingRef) : outcome t :=
  let n := ModRing.n (obj ring) in
  value <- pymod value n ;;
  Return (mk n value ring).

(* assert type(other) is type(self) *)
Definition assert_type (other : operand) : outcome t :=
  match other with
  | Elt x => Return x
  | _ => Raise (AssertionError None)
  end.

Definition different_rings : option string :=
  Some "numbers come from different rings"%string.

Definition __eq__ (self : t) (other : operand) : outcome bool :=
  other <- assert_type other ;;
  _ <- assert_ (ring_is (ring other) (ring self)) different_rings ;;
  Return (value other =? value self).

Definition __neg__ (self : t) : outcome t :=
  __init__ (n self - value self) (ring self).

Definition __add__ (self : t) (addend : operand) : outcome t :=
  addend <- assert_type addend ;;
  _ <- assert_ (ring_is (ring addend) (ring self)) different_rings ;;
  __init__ (value self + value addend) (ring self).

Definition __sub__ (self : t) (subtrahend : operand) : outcome t :=
  subtrahend <- assert_type subtrahend ;;
  _ <- assert_ (ring_is (ring subtrahend) (ring self)) different_rings ;;
  __init__ (value self - value subtrahend) (ring self).

Definition __mul__ (self : t) (factor : operand) : outcome t :=
  factor <- assert_type factor ;;
  _ <- assert_ (ring_is (ring factor) (ring self)) different_rings ;;
  __init__ (value self * value factor) (ring self).

(* all(self.value % factor for factor in self.ring.prime_factors) *)
Fixpoint all_nonzero_mod (value : Z) (factors : list Z) : outcome bool :=
  match factors with
  | [] => Return true
  | factor :: factors' =>
      r <- pymod value factor ;;
      if r =? 0 then Return false else all_nonzero_mod value factors'
  end.

Definition is_coprime (self : t) : outcome bool :=
  all_nonzero_mod (value self) (keys (ModRing.prime_factors (obj (ring self)))).

(* for i in range(e - 1): ... on the state (value, value_e) *)
Fixpoint for_range (iters : nat) (p value value_e : Z) : outcome (Z * Z) :=
  match iters with
  | O => Return (value, value_e)
  | S iters' =>
      '(quotient, remainder) <- divmod value p ;;
      if remainder =? 0 then for_range iters' p quotient (value_e + 1)
      else for_range iters' p value value_e
  end.

(* One turn of the loop over prime_factors.items(), on the state
   (nul_pow, value, m, k). *)
Definition decompose_step (st : Z * Z * Z * Z) (item : Z * Z)
    : outcome (Z * Z * Z * Z) :=
  let '(nul_pow, value, m, k) := st in
  let '(p, e) := item in
  '(quotient, remainder) <- divmod value p ;;
  if remainder =? 0 then
    p_e <- pypow p e ;;
    m <- floordiv m p_e ;;
    let k := k * p_e in
    let value := quotient in
    let value_e := 1 in
    '(value, value_e) <- for_range (Z.to_nat (e - 1)) p value value_e ;;
    '(quotient, remainder) <- divmod e value_e ;;
    let nul_pow_p := quotient - (if remainder =? 0 then 1 else 0) in
    let nul_pow := Z.max nul_pow_p nul_pow in
    Return (nul_pow, value, m, k)
  else Return (nul_pow, value, m, k).

Definition decompose (self : t) : outcome (Z * Z * Z) :=
  let nul_pow := -1 in
  let value := value self in
  let m := n self in
  let k := 1 in
  '(nul_pow, _, m, k) <-
     foldM decompose_step (items (ModRing.prime_factors (obj (ring self))))
           (nul_pow, value, m, k) ;;
  Return (nul_pow, k, m).

Definition zero_power : string := "0 cannot be eleveted to power"%string.
Definition non_coprime : option string :=
  Some "exponent needs to be positive for non-coprimes"%string.

(* The result is an [operand] because one path leaves the function without
   a [return], and the caller then holds [None]. *)
Definition __pow__ (fuel : nat) (self : t) (exponent : Z) (short : bool)
    : outcome operand :=
  if value self =? 0 then Raise (ValueError zero_power)
  else if (exponent =? 0) || (value self =? 1) then
    x <- __init__ 1 (ring self) ;; Return (Elt x)
  else if exponent <? 0 then
    c <- is_coprime self ;;
    _ <- assert_ c non_coprime ;;
    exponent <- pymod exponent (ModRing.phi (obj (ring self))) ;;
    v <- pypow (value self) exponent ;;
    x <- __init__ v (ring self) ;; Return (Elt x)
  else
    if short then
      '(nul_pow, k, m) <- decompose self ;;
      if nul_pow =? -1 then
        exponent <- pymod exponent (ModRing.phi (obj (ring self))) ;;
        v <- pypow (value self) exponent ;;
        x <- __init__ v (ring self) ;; Return (Elt x)
      else if exponent >? nul_pow then
        sub <- ModRing.__init__ fuel m ;;
        let phi_m := ModRing.phi sub in
        exponent <- pymod exponent phi_m ;;
        a <- pypow k phi_m ;;
        b <- pypow (value self) exponent ;;
        let new_value := a * b in
        x <- __init__ new_value (ring self) ;; Return (Elt x)
      else Return None_
    else
      v <- pypow (value self) exponent ;;
      x <- __init__ v (ring self) ;; Return (Elt x).

Definition __floordiv__ (fuel : nat) (self : t) (divisor : operand) : outcome t :=
  divisor <- assert_type divisor ;;
  _ <- assert_ (ring_is (ring divisor) (ring self)) different_rings ;;
  inverse <- __pow__ fuel divisor (-1) true ;;
  __mul__ self inverse.

End ModInt.

(* ModRing.__call__ *)
Definition ModRing_call (self : ModRingRef) (value : Z) : outcome ModInt.t :=
  ModInt.__init__ value self.

(** ** What the claims speak about *)

(* The product of p^e over the entries of a dictionary. *)
Definition dict_prod (d : dict) : Z :=
  fold_right (fun pe acc => fst pe ^ snd pe * acc) 1 d.

(* [d] is the factorisation of [n] into powers of distinct primes. *)
Definition factorization (d : dict) (n : Z) : Prop :=
  NoDup (keys d) /\
  Forall (fun pe => Z.prime (fst pe) /\ 0 < snd pe) d /\
  dict_prod d = n.

(* The integers of [lo, hi), in increasing order. *)
Definition range (lo hi : Z) : list Z :=
  map (fun i => lo + Z.of_nat i) (seq 0 (Z.to_nat (hi - lo))).

(* The count of integers in [1, n) coprime to n. *)
Definition coprime_count (n : Z) : Z :=
  Z.of_nat (length (filter (fun d => Z.gcd d n =? 1) (range 1 n))).

(* The product of (p - 1) * p^(e - 1) over the entries of a dictionary. *)
Definition dict_phi (d : dict) : Z :=
  fold_right (fun pe acc => (fst pe - 1) * fst pe ^ (snd pe - 1) * acc) 1 d.

(* The entries of a dictionary whose prime divides v. *)
Definition divides_value (v : Z) (pe : Z * Z) : bool := v mod fst pe =? 0.
Definition shared (d : dict) (v : Z) : dict := filter (divides_value v) d.
Definition unshared (d : dict) (v : Z) : dict :=
  filter (fun pe => negb (divides_value v pe)) d.

(* The multiplicity of p in v clipped at [bound]: the largest j <= bound
   such that p^j divides v. *)
Fixpoint multiplicity_upto (bound : nat) (p v : Z) : Z :=
  match bound with
  | O => 0
  | S b =>
      if v mod p ^ Z.of_nat (S b) =? 0 then Z.of_nat (S b)
      else multiplicity_upto b p v
  end.

Definition clipped_multiplicity (p e v : Z) : Z :=
  multiplicity_upto (Z.to_nat e) p v.

(* floor(e / value_e) - 1 if value_e divides e evenly, else floor(e / value_e) *)
Definition nul_pow_of (e value_e : Z) : Z :=
  if e mod value_e =? 0 then e / value_e - 1 else e / value_e.

(* nul_pow_p for each prime factor of the modulus that divides v *)
Definition nul_pows (d : dict) (v : Z) : list Z :=
  map (fun pe => nul_pow_of (snd pe) (clipped_multiplicity (fst pe) (snd pe) v))
      (shared d v).

(* [m] is the maximum of the list [l]. *)
Definition is_maximum (m : Z) (l : list Z) : Prop :=
  In m l /\ Forall (fun x => x <= m) l.

(* n times the product of (1 - 1/p) over the primes p, as a rational. *)
Definition euler_product (n : Z) (primes : list Z) : Q :=
  (inject_Z n * fold_right (fun p acc => (1 - 1 / inject_Z p) * acc) 1 primes)%Q.

(* ring(value) for a ring of modulus different from 0 *)
Definition mint (r : ModRingRef) (value : Z) : ModInt.t :=
  ModInt.mk (ModRing.n (obj r)) (value mod ModRing.n (obj r)) r.

(* The error names of the specification, as the exceptions of the code. *)
Definition InvalidOperationError (e : exn) : Prop :=
  e = ValueError ModInt.zero_power \/ e = AssertionError ModInt.non_coprime.

Definition RingMismatchError (e : exn) : Prop :=
  e = AssertionError ModInt.different_rings.

Definition is_ModInt (o : ModInt.operand) : bool :=
  match o with ModInt.Elt _ => true | _ => false end.

(** ** Failing operators on good inputs *)

Lemma divmod_ok (a b : Z) : b <> 0 -> divmod a b = Return (a / b, a mod b).
Proof. intros H. unfold divmod. destruct (Z.eqb_spec b 0); [contradiction | reflexivity]. Qed.

Lemma floordiv_ok (a b : Z) : b <> 0 -> floordiv a b = Return (a / b).
Proof. intros H. unfold floordiv. destruct (Z.eqb_spec b 0); [contradiction | reflexivity]. Qed.

Lemma pymod_ok (a b : Z) : b <> 0 -> pymod a b = Return (a mod b).
Proof. intros H. unfold pymod. destruct (Z.eqb_spec b 0); [contradiction | reflexivity]. Qed.

Lemma pypow_ok (b e : Z) : 0 <= e -> pypow b e = Return (b ^ e).
Proof. intros H. unfold pypow. destruct (Z.ltb_spec e 0); [lia | reflexivity]. Qed.

Lemma pow_ge_1 (a b : Z) : 1 <= a -> 0 <= b -> 1 <= a ^ b.
Proof. intros Ha Hb. pose proof (Z.pow_pos_nonneg a b ltac:(lia) Hb). lia. Qed.

(** ** Dictionaries *)

Lemma keys_app (d1 d2 : dict) : keys (d1 ++ d2) = keys d1 ++ keys d2.
Proof. unfold keys. apply map_app. Qed.

Lemma dict_set_fresh (d : dict) (k v : Z) :
  ~ In k (keys d) -> dict_set d k v = d ++ [(k, v)].
Proof.
  induction d as [|[k' v'] d IH]; simpl; intros Hk; [reflexivity|].
  destruct (Z.eqb_spec k' k) as [->|Hne]; [tauto|].
  rewrite IH; tauto.
Qed.

Lemma dict_set_last (d : dict) (k v w : Z) :
  ~ In k (keys d) -> dict_set (d ++ [(k, v)]) k w = d ++ [(k, w)].
Proof.
  induction d as [|[k' v'] d IH]; simpl; intros Hk.
  - rewrite Z.eqb_refl. reflexivity.
  - destruct (Z.eqb_spec k' k) as [->|Hne]; [tauto|].
    rewrite IH; tauto.
Qed.

Lemma dict_get_last (d : dict) (k v : Z) :
  ~ In k (keys d) -> dict_get (d ++ [(k, v)]) k = Return v.
Proof.
  induction d as [|[k' v'] d IH]; simpl; intros Hk.
  - rewrite Z.eqb_refl. reflexivity.
  - destruct (Z.eqb_spec k' k) as [->|Hne]; [tauto|].
    apply IH; tauto.
Qed.

Lemma dict_prod_cons (pe : Z * Z) (d : dict) :
  dict_prod (pe :: d) = fst pe ^ snd pe * dict_prod d.
Proof. reflexivity. Qed.

Lemma dict_prod_app (d1 d2 : dict) :
  dict_prod (d1 ++ d2) = dict_prod d1 * dict_prod d2.
Proof.
  induction d1 as [|pe d1 IH]; simpl.
  - destruct (dict_prod d2); reflexivity.
  - rewrite IH. ring.
Qed.

Lemma dict_prod_last (d : dict) (p e : Z) :
  dict_prod (d ++ [(p, e)]) = dict_prod d * p ^ e.
Proof. rewrite dict_prod_app. simpl. ring. Qed.

(** ** Trial division *)

Section TrialDivision.

Variable m : Z.
Hypothesis m_ge_2 : 2 <= m.

Lemma exact_quotient_bounds (z : Z) :
  1 <= z -> z mod m = 0 -> 1 <= z / m < z /\ z = m * (z / m).
Proof.
  intros Hz Hr.
  pose proof (Z.div_mod z m ltac:(lia)) as E. rewrite Hr, Z.add_0_r in E.
  split; [|exact E]. nia.
Qed.

Lemma while_divides_spec (fuel : nat) : forall (z c : Z) (d : dict),
  1 <= z -> ~ In m (keys d) -> z <= Z.of_nat fuel ->
  exists j z', 0 <= j /\ 1 <= z' /\ z = m ^ j * z' /\ z' mod m <> 0 /\
    ModRing.while_divides fuel m z (d ++ [(m, c)]) (z / m) (z mod m)
    = Return (z', d ++ [(m, c + j)], z' / m, z' mod m).
Proof.
  induction fuel as [|fuel IH]; intros z c d Hz Hk Hfuel; [lia|].
  cbn [ModRing.while_divides].
  destruct (Z.eqb_spec (z mod m) 0) as [Hr|Hr].
  - destruct (exact_quotient_bounds z Hz Hr) as [Hq Ez].
    rewrite dict_get_last by assumption. cbn [bind].
    rewrite dict_set_last by assumption.
    rewrite divmod_ok by lia. cbn [bind].
    destruct (IH (z / m) (c + 1) d) as (j & z' & Hj & Hz' & Ej & Hr' & Hrun);
      [lia | assumption | lia |].
    exists (j + 1), z'. repeat split; try assumption; try lia.
    + rewrite Z.pow_add_r, Z.pow_1_r by lia. rewrite Ez at 1. rewrite Ej. ring.
    + rewrite Hrun. replace (c + (j + 1)) with (c + 1 + j) by lia. reflexivity.
  - exists 0, z. repeat split; try assumption; try lia.
    rewrite Z.add_0_r. reflexivity.
Qed.

(* Dividing by m as long as it divides: the entry for m, if one is made,
   goes last and carries the multiplicity of m. *)
Lemma try_divisor_spec (budget : nat) (z : Z) (d : dict) :
  1 <= z -> ~ In m (keys d) -> z <= Z.of_nat budget ->
  exists j z', 0 <= j /\ 1 <= z' /\ z = m ^ j * z' /\ z' mod m <> 0 /\
    ModRing.try_divisor budget m z d
    = Return (z', if j =? 0 then d else d ++ [(m, j)]).
Proof.
  intros Hz Hk Hfuel. unfold ModRing.try_divisor.
  rewrite divmod_ok by lia. cbn [bind].
  destruct (Z.eqb_spec (z mod m) 0) as [Hr|Hr].
  - rewrite dict_set_fresh by assumption.
    destruct (while_divides_spec budget z 0 d Hz Hk Hfuel)
      as (j & z' & Hj & Hz' & Ej & Hr' & Hrun).
    rewrite Hrun. cbn [bind].
    exists j, z'. repeat split; try assumption.
    destruct (Z.eqb_spec j 0) as [->|_]; [|reflexivity].
    rewrite Z.pow_0_r, Z.mul_1_l in Ej. congruence.
  - exists 0, z. repeat split; try assumption; try lia.
Qed.

End TrialDivision.

Section Factorize.

Variable n : Z.

(* What holds each time the test [m * m <= z] is reached. *)
Record odd_inv (m z : Z) (d : dict) : Prop := {
  inv_m : 3 <= m;
  inv_odd : m mod 2 = 1;
  inv_z : 1 <= z;
  inv_prod : dict_prod d * z = n;
  inv_keys : Forall (fun pe => Z.prime (fst pe) /\ fst pe < m /\ 0 < snd pe) d;
  inv_nodup : NoDup (keys d);
  inv_small : forall q, 1 < q < m -> ~ (q | z)
}.

Lemma keys_below (m : Z) (d : dict) :
  Forall (fun pe => Z.prime (fst pe) /\ fst pe < m /\ 0 < snd pe) d ->
  forall k, m <= k -> ~ In k (keys d).
Proof.
  intros HF k Hk Hin. unfold keys in Hin. apply in_map_iff in Hin.
  destruct Hin as (pe & <- & Hin).
  rewrite Forall_forall in HF. specialize (HF pe Hin). lia.
Qed.

Lemma NoDup_keys_snoc (d : dict) (k v : Z) :
  NoDup (keys d) -> ~ In k (keys d) -> NoDup (keys (d ++ [(k, v)])).
Proof.
  intros Hnd Hk. rewrite keys_app. simpl.
  apply NoDup_app; [assumption | repeat constructor; simpl; tauto |].
  intros x Hx [<-|[]]. contradiction.
Qed.

Lemma divisor_is_prime (m z : Z) :
  1 < m -> (m | z) -> (forall q, 1 < q < m -> ~ (q | z)) -> Z.prime m.
Proof.
  intros Hm Hdiv Hsmall. split; [assumption|].
  intros q Hq Hqm. apply (Hsmall q Hq). eapply Z.divide_trans; eassumption.
Qed.

Lemma odd_step (budget : nat) (m z : Z) (d : dict) :
  odd_inv m z d -> z <= Z.of_nat budget ->
  exists z' d',
    ModRing.try_divisor budget m z d = Return (z', d') /\
    odd_inv (m + 2) z' d' /\ z' <= z.
Proof.
  intros [Hm Hodd Hz Hprod Hkeys Hnd Hsmall] Hfuel.
  assert (Hfresh : ~ In m (keys d)) by (apply (keys_below m); [assumption | lia]).
  destruct (try_divisor_spec m ltac:(lia) budget z d Hz Hfresh Hfuel)
    as (j & z' & Hj & Hz' & Ej & Hr' & Hrun).
  exists z', (if j =? 0 then d else d ++ [(m, j)]).
  assert (Hle : z' <= z).
  { rewrite Ej. pose proof (pow_ge_1 m j ltac:(lia) Hj). nia. }
  assert (Hdz : (z' | z)) by (exists (m ^ j); lia).
  assert (Hsmall' : forall q, 1 < q < m + 2 -> ~ (q | z')).
  { intros q Hq Hqz.
    assert (Hcases : q < m \/ q = m \/ q = m + 1) by lia.
    destruct Hcases as [Hlt | [-> | ->]].
    - apply (Hsmall q); [lia | eapply Z.divide_trans; eassumption].
    - apply Hr'. apply Z.mod_divide; [lia | assumption].
    - apply (Hsmall 2); [lia|].
      apply Z.divide_trans with z'; [|assumption].
      apply Z.divide_trans with (m + 1); [|assumption].
      apply Z.mod_divide; [lia|].
      rewrite Z.add_mod, Hodd by lia. reflexivity. }
  split; [exact Hrun|]. split; [|exact Hle].
  destruct (Z.eqb_spec j 0) as [->|Hj0].
  - rewrite Z.pow_0_r, Z.mul_1_l in Ej. subst z'.
    constructor; try assumption; try lia.
    + rewrite Z.add_mod, Hodd by lia. reflexivity.
    + eapply Forall_impl; [|exact Hkeys]. cbn beta.
      intros pe (H1 & H2 & H3). split; [assumption | lia].
  - assert (Hmz : (m | z)).
    { exists (m ^ (j - 1) * z'). rewrite Ej.
      replace j with (j - 1 + 1) at 1 by lia.
      rewrite Z.pow_add_r, Z.pow_1_r by lia. ring. }
    constructor; try assumption; try lia.
    + rewrite Z.add_mod, Hodd by lia. reflexivity.
    + rewrite dict_prod_last, <- Hprod, Ej. ring.
    + apply Forall_app. split.
      * eapply Forall_impl; [|exact Hkeys]. cbn beta.
      intros pe (H1 & H2 & H3). split; [assumption | lia].
      * constructor; [|constructor]. cbn [fst snd].
        split; [|lia]. apply (divisor_is_prime m z); [lia | assumption | assumption].
    + apply NoDup_keys_snoc; assumption.
Qed.

Lemma while_odd_spec (budget fuel : nat) : forall (m z : Z) (d : dict),
  odd_inv m z d -> z <= Z.of_nat budget -> z - m < Z.of_nat fuel ->
  exists m' z' d',
    ModRing.while_odd budget fuel m z d = Return (z', d') /\
    odd_inv m' z' d' /\ z' < m' * m'.
Proof.
  induction fuel as [|fuel IH]; intros m z d Hinv Hbudget Hfuel.
  - exists m, z, d. cbn [ModRing.while_odd].
    pose proof (inv_m _ _ _ Hinv).
    destruct (Z.leb_spec (m * m) z); [nia|]. auto.
  - cbn [ModRing.while_odd].
    destruct (Z.leb_spec (m * m) z); [|exists m, z, d; auto].
    destruct (odd_step budget m z d Hinv Hbudget) as (z1 & d1 & Hrun & Hinv1 & Hle).
    rewrite Hrun. cbn [bind].
    apply IH; [assumption | lia | lia].
Qed.

(* Once m * m exceeds z, what is left of z is 1 or a prime above all keys. *)
Lemma cofactor_prime (m z : Z) (d : dict) :
  odd_inv m z d -> z < m * m -> z <> 1 -> Z.prime z /\ m <= z.
Proof.
  intros [Hm Hodd Hz Hprod Hkeys Hnd Hsmall] Hlt Hz1.
  assert (Hmz : m <= z).
  { destruct (Z_lt_le_dec z m) as [Hc|]; [|assumption].
    exfalso. apply (Hsmall z); [lia | apply Z.divide_refl]. }
  split; [|assumption].
  split; [lia|]. intros q Hq [c Hc].
  assert (Hqm : m <= q).
  { destruct (Z_lt_le_dec q m) as [Hc'|]; [|assumption].
    exfalso. apply (Hsmall q); [lia | exists c; assumption]. }
  assert (Hcm : m <= c).
  { destruct (Z_lt_le_dec c m) as [Hc'|]; [|assumption].
    exfalso. apply (Hsmall c); [nia | exists q; lia]. }
  nia.
Qed.

Theorem factorize_spec (fuel : nat) :
  1 <= n -> n <= Z.of_nat fuel ->
  exists d, ModRing.factorize fuel n = Return d /\ factorization d n.
Proof.
  intros Hn Hfuel. unfold ModRing.factorize.
  destruct (try_divisor_spec 2 ltac:(lia) fuel n [] Hn (fun H => H) Hfuel)
    as (j & z0 & Hj & Hz0 & Ej & Hr0 & Hrun0).
  rewrite Hrun0. cbn [bind].
  assert (Hle0 : z0 <= n).
  { rewrite Ej. pose proof (pow_ge_1 2 j ltac:(lia) Hj). nia. }
  assert (Hinv0 : odd_inv 3 z0 (if j =? 0 then [] else [] ++ [(2, j)])).
  { constructor; try lia; try reflexivity.
    - destruct (Z.eqb_spec j 0) as [->|]; simpl.
      + rewrite Ej. simpl. destruct z0; reflexivity.
      + rewrite Ej. ring.
    - destruct (Z.eqb_spec j 0); simpl; constructor; [|constructor].
      cbn [fst snd]. split; [exact Z.prime_2 | lia].
    - destruct (Z.eqb_spec j 0); simpl; repeat constructor; simpl; tauto.
    - intros q Hq Hd. assert (q = 2) by lia. subst q.
      apply Hr0. apply Z.mod_divide; [lia | assumption]. }
  destruct (while_odd_spec fuel fuel 3 z0 _ Hinv0 ltac:(lia) ltac:(lia))
    as (m' & z' & d' & Hrun & Hinv & Hstop).
  rewrite Hrun. cbn [bind].
  pose proof Hinv as [Hm Hodd Hz Hprod Hkeys Hnd Hsmall].
  assert (Hweak : Forall (fun pe => Z.prime (fst pe) /\ 0 < snd pe) d').
  { eapply Forall_impl; [|exact Hkeys]. cbn beta. intros pe. tauto. }
  destruct (Z.eqb_spec z' 1) as [->|Hz1]; cbn [negb].
  - exists d'. split; [reflexivity|].
    repeat split; [assumption | assumption | lia].
  - destruct (cofactor_prime m' z' d' Hinv Hstop Hz1) as [Hp Hmz].
    assert (Hfresh : ~ In z' (keys d')) by (apply (keys_below m'); assumption).
    exists (d' ++ [(z', 1)]). split; [rewrite dict_set_fresh by assumption; reflexivity|].
    repeat split.
    + apply NoDup_keys_snoc; assumption.
    + apply Forall_app. split; [assumption|].
      constructor; [|constructor]. cbn [fst snd]. split; [assumption | lia].
    + rewrite dict_prod_last, Z.pow_1_r. assumption.
Qed.

End Factorize.

(** ** Number theory carried over from the natural numbers

    Euler's theorem and the properties of the totient are taken from
    MathComp, where they are stated on [nat]; this module restates them
    on non-negative integers. *)

Module NatBridge.
Import ssreflect ssrfun ssrbool eqtype ssrnat seq div prime bigop cyclic.


Lemma of_nat_expn (a b : nat) : Z.of_nat (expn a b) = Z.of_nat a ^ Z.of_nat b.
Proof.
  elim: b => [|b IH]; first by rw expn0.
  rw expnS -multE Nat2Z.inj_mul IH Nat2Z.inj_succ Z.pow_succ_r //.
  exact: Nat2Z.is_nonneg.
Qed.

Lemma modn_mod (a d : nat) : (0 < d)%N -> modn a d = Nat.modulo a d.
Proof.
  move=> Hd. apply: (Nat.mod_unique a d (divn a d)).
  - exact/ltP/ltn_pmod.
  - rw plusE multE mulnC. exact: divn_eq.
Qed.

Lemma of_nat_modn (a d : nat) :
  (0 < d)%N -> Z.of_nat (modn a d) = Z.of_nat a mod Z.of_nat d.
Proof. by move=> Hd; rw modn_mod // Nat2Z.inj_mod. Qed.

Lemma dvdn_divide (d m : nat) : (d %| m)%N <-> (Z.of_nat d | Z.of_nat m).
Proof.
  split.
  - move=> /dvdnP [k ->]. exists (Z.of_nat k). by rw -multE Nat2Z.inj_mul.
  - case=> z Hz. apply/dvdnP. exists (Z.to_nat z).
    apply: Nat2Z.inj. rw -multE Nat2Z.inj_mul.
    have Hm := Nat2Z.is_nonneg m. have Hd := Nat2Z.is_nonneg d.
    case: (Z_lt_le_dec z 0) => Hz0.
    + have -> : Z.to_nat z = 0%N by lia.
      nia.
    + by rw Z2Nat.id.
Qed.

Lemma of_nat_gcdn (a b : nat) :
  Z.of_nat (gcdn a b) = Z.gcd (Z.of_nat a) (Z.of_nat b).
Proof.
  symmetry. apply: Z.gcd_unique.
  - exact: Nat2Z.is_nonneg.
  - apply/dvdn_divide. exact: dvdn_gcdl.
  - apply/dvdn_divide. exact: dvdn_gcdr.
  - move=> q Ha Hb. apply/Z.divide_abs_l. rw -Zabs2Nat.id_abs.
    apply/dvdn_divide. rw dvdn_gcd. apply/andP; split; apply/dvdn_divide;
      rw Zabs2Nat.id_abs; exact/Z.divide_abs_l.
Qed.

Lemma coprime_gcd (a b : nat) :
  coprime a b <-> Z.gcd (Z.of_nat a) (Z.of_nat b) = 1.
Proof.
  rw -of_nat_gcdn /coprime. split.
  - by move=> /eqP ->.
  - move=> H. apply/eqP. apply: Nat2Z.inj. exact: H.
Qed.

Lemma prime_Zprime (p : nat) : prime p <-> Z.prime (Z.of_nat p).
Proof.
  split.
  - move=> /primeP [/ltP Hp Hd]. split; first lia.
    move=> q Hq Hdiv.
    have Eq : q = Z.of_nat (Z.to_nat q) by rw Z2Nat.id; lia.
    rw Eq in Hdiv. move/dvdn_divide: Hdiv => /Hd /orP [/eqP E|/eqP E]; lia.
  - case=> Hp Hd. apply/primeP; split; first by apply/ltP; lia.
    move=> d Hdiv.
    have Hle : (d <= p)%N by apply: dvdn_leq => //; apply/ltP; lia.
    move/leP: Hle => Hle.
    move/dvdn_divide: (Hdiv) => HdivZ.
    case: (Nat.eq_dec d 1) => [->|Hd1]; first by [].
    case: (Nat.eq_dec d p) => [->|Hdp]; first by rw eqxx orbT.
    exfalso. apply: (Hd (Z.of_nat d)) => //.
    have Hd0 : d <> 0%N.
    { move=> E. rw E in HdivZ. case: HdivZ => z Hz. lia. }
    lia.
Qed.

(* Euler's totient of a positive integer, carried over to Z *)
Definition totientZ (n : Z) : Z := Z.of_nat (totient (Z.to_nat n)).

Lemma totientZ_1 : totientZ 1 = 1.
Proof. by []. Qed.

Lemma totientZ_pos (n : Z) : 0 < n -> 0 < totientZ n.
Proof.
  move=> Hn. rw /totientZ.
  have : (0 < totient (Z.to_nat n))%N by rw totient_gt0; apply/ltP; lia.
  move/ltP. lia.
Qed.

Lemma totientZ_mul (a b : Z) :
  0 < a -> 0 < b -> Z.gcd a b = 1 -> totientZ (a * b) = totientZ a * totientZ b.
Proof.
  move=> Ha Hb Hg. rw /totientZ Z2Nat.inj_mul; try lia.
  rw multE totient_coprime; last by rw -multE Nat2Z.inj_mul.
  apply/coprime_gcd. rw !Z2Nat.id; try lia.
Qed.

Lemma of_nat_predn (k : nat) : (0 < k)%N -> Z.of_nat k.-1 = Z.of_nat k - 1.
Proof. case: k => [|k] // _. rw -pred_Sn Nat2Z.inj_succ. lia. Qed.

Lemma totientZ_pfactor (p e : Z) :
  Z.prime p -> 0 < e -> totientZ (p ^ e) = (p - 1) * p ^ (e - 1).
Proof.
  move=> Hp He. have Hp2 := Z.prime_ge_2 p Hp.
  have Ep : p = Z.of_nat (Z.to_nat p) by rw Z2Nat.id; lia.
  have Ee : e = Z.of_nat (Z.to_nat e) by rw Z2Nat.id; lia.
  have Hp' : prime (Z.to_nat p) by apply/prime_Zprime; rw -Ep.
  have He' : (0 < Z.to_nat e)%N by apply/ltP; lia.
  have Hp0 : (0 < Z.to_nat p)%N by apply/ltP; lia.
  rw /totientZ {1}Ep {1}Ee -of_nat_expn Nat2Z.id (totient_pfactor Hp' He').
  by rw -multE Nat2Z.inj_mul of_nat_expn !of_nat_predn // -Ep -Ee.
Qed.

Theorem Euler_Z (a n : Z) :
  0 <= a -> 0 < n -> Z.gcd a n = 1 -> a ^ totientZ n mod n = 1 mod n.
Proof.
  move=> Ha Hn Hg.
  have Ea : a = Z.of_nat (Z.to_nat a) by rw Z2Nat.id.
  have En : n = Z.of_nat (Z.to_nat n) by rw Z2Nat.id; lia.
  have Hn' : (0 < Z.to_nat n)%N by apply/ltP; lia.
  have Hc : coprime (Z.to_nat a) (Z.to_nat n) by apply/coprime_gcd; rw -Ea -En.
  have := Euler_exp_totient Hc. move/(f_equal Z.of_nat).
  rw !of_nat_modn // of_nat_expn -Ea -En. by [].
Qed.

Lemma coprime_gcdb (n s : nat) :
  (Z.gcd (1 + Z.of_nat s) (Z.of_nat n) =? 1) = coprime n s.+1.
Proof.
  have -> : 1 + Z.of_nat s = Z.of_nat s.+1 by rw Nat2Z.inj_succ; lia.
  rw coprime_sym.
  case: (Z.eqb_spec (Z.gcd (Z.of_nat s.+1) (Z.of_nat n)) 1) => [/coprime_gcd ->|H] //.
  symmetry. apply/negP => /coprime_gcd. exact: H.
Qed.

Lemma count_coprime_iota (n s len : nat) :
  count (coprime n) (iota s.+1 len)
  = length (filter (fun d => Z.gcd d (Z.of_nat n) =? 1)
              (map (fun i => 1 + Z.of_nat i) (List.seq s len))).
Proof.
  elim: len s => [|len IH] s //=.
  rw IH coprime_gcdb. by case: (coprime n s.+1).
Qed.

Lemma sum_count (P : pred nat) (r : seq nat) :
  \sum_(j <- r) (P j : nat) = count P r.
Proof.
  elim: r => [|x r IH]; first by rw big_nil.
  by rw big_cons IH.
Qed.

Lemma totient_from_1 (k : nat) :
  (0 < k)%N -> totient k.+1 = count (coprime k.+1) (iota 1 k).
Proof.
  move=> Hk. rw totient_count_coprime /index_iota subn0 sum_count /=.
  have -> : coprime k.+1 0 = false; last by [].
  rw /coprime gcdn0. apply/eqP => E. move/ltP: Hk. lia.
Qed.

Theorem totientZ_count (n : Z) : 2 <= n -> totientZ n = coprime_count n.
Proof.
  move=> Hn. rw /totientZ /coprime_count /range.
  congr Z.of_nat.
  have En : n = Z.of_nat (Z.to_nat n) by rw Z2Nat.id; lia.
  rw {2}En -count_coprime_iota.
  have -> : Z.to_nat n = (Z.to_nat (n - 1)).+1 by lia.
  apply: totient_from_1. apply/ltP. lia.
Qed.

End NatBridge.

(** ** The totient of a factorised number *)

Lemma dict_prod_pos (d : dict) :
  Forall (fun pe => Z.prime (fst pe) /\ 0 < snd pe) d -> 1 <= dict_prod d.
Proof.
  induction 1 as [|pe d [Hp He] _ IH]; simpl; [lia|].
  pose proof (Z.prime_ge_2 _ Hp).
  pose proof (pow_ge_1 (fst pe) (snd pe) ltac:(lia) ltac:(lia)). nia.
Qed.

Lemma distinct_primes_coprime (p q : Z) :
  Z.prime p -> Z.prime q -> p <> q -> Z.coprime p q.
Proof.
  intros Hp Hq Hne. apply Z.coprime_prime_l; [assumption|].
  intros Hd. apply Hne. apply Z.divide_prime_prime; assumption.
Qed.

(* A prime that is not a key is coprime to the product. *)
Lemma coprime_dict_prod (p : Z) (d : dict) :
  Z.prime p -> Forall (fun pe => Z.prime (fst pe) /\ 0 < snd pe) d ->
  ~ In p (keys d) -> Z.coprime p (dict_prod d).
Proof.
  intros Hp HF. induction HF as [|pe d [Hq He] _ IH]; simpl; intros Hin.
  - apply Z.coprime_1_r.
  - apply Z.coprime_mul_r.
    + apply Z.coprime_pow_r; [lia|].
      apply distinct_primes_coprime; [assumption | assumption | intuition congruence].
    + apply IH. tauto.
Qed.

Lemma compute_phi_fold (d : dict) : forall c,
  Forall (fun pe => Z.prime (fst pe) /\ 0 < snd pe) d ->
  foldM (fun x y => q <- floordiv x y ;; Return (q * (y - 1)))
        (keys d) (c * dict_prod d)
  = Return (c * dict_phi d).
Proof.
  induction d as [|[p e] d IH]; intros c HF; simpl.
  - reflexivity.
  - inversion HF as [|? ? [Hp He] HF']; subst. cbn [fst snd] in *.
    pose proof (Z.prime_ge_2 _ Hp).
    rewrite floordiv_ok by lia. cbn [bind].
    replace (c * (p ^ e * dict_prod d)) with (c * p ^ (e - 1) * dict_prod d * p).
    2:{ replace e with (e - 1 + 1) at 2 by lia.
        rewrite Z.pow_add_r, Z.pow_1_r by lia. ring. }
    rewrite Z.div_mul by lia.
    replace (c * p ^ (e - 1) * dict_prod d * (p - 1))
      with (c * p ^ (e - 1) * (p - 1) * dict_prod d) by ring.
    rewrite IH by assumption. f_equal. ring.
Qed.

Lemma compute_phi_spec (n : Z) (d : dict) :
  factorization d n -> ModRing.compute_phi n d = Return (dict_phi d).
Proof.
  intros (_ & HF & <-). unfold ModRing.compute_phi.
  rewrite <- (Z.mul_1_l (dict_prod d)), compute_phi_fold by assumption.
  rewrite Z.mul_1_l. reflexivity.
Qed.

Lemma dict_phi_totient (d : dict) : forall n,
  factorization d n -> dict_phi d = NatBridge.totientZ n.
Proof.
  induction d as [|[p e] d IH]; intros n (Hnd & HF & <-); simpl.
  - reflexivity.
  - inversion HF as [|? ? [Hp He] HF']; subst. cbn [fst snd] in *.
    simpl in Hnd. inversion Hnd as [|? ? Hnotin Hnd']; subst.
    pose proof (Z.prime_ge_2 _ Hp).
    rewrite NatBridge.totientZ_mul.
    + rewrite NatBridge.totientZ_pfactor by assumption.
      rewrite <- (IH (dict_prod d)); [ring | repeat split; assumption].
    + pose proof (pow_ge_1 p e ltac:(lia) ltac:(lia)). lia.
    + pose proof (dict_prod_pos d HF'). lia.
    + apply Z.coprime_pow_l; [lia|]. apply coprime_dict_prod; assumption.
Qed.

(* What the constructor builds from a modulus n >= 1. *)
Theorem ring_init_spec (fuel : nat) (n : Z) :
  1 <= n -> n <= Z.of_nat fuel ->
  exists d, ModRing.__init__ fuel n = Return (ModRing.mk n d (dict_phi d)) /\
            factorization d n.
Proof.
  intros Hn Hfuel. unfold ModRing.__init__.
  destruct (factorize_spec n fuel Hn Hfuel) as (d & Hrun & Hfact).
  exists d. rewrite Hrun. cbn [bind].
  rewrite (compute_phi_spec n d Hfact). cbn [bind]. auto.
Qed.

(** ** Multiplicities *)

Lemma pow_divide_mono (p i j : Z) : 0 <= i <= j -> (p ^ i | p ^ j).
Proof.
  intros H. exists (p ^ (j - i)).
  rewrite <- Z.pow_add_r by lia. f_equal. lia.
Qed.

Lemma mod_zero_divide (a b : Z) : b <> 0 -> (a mod b =? 0) = true <-> (b | a).
Proof.
  intros Hb. rewrite Z.eqb_eq. apply Z.mod_divide. assumption.
Qed.

(* The clipped multiplicity is determined by what it divides. *)
Lemma multiplicity_upto_unique (p v : Z) (bound : nat) : forall j,
  2 <= p -> 0 <= j <= Z.of_nat bound -> (p ^ j | v) ->
  (j = Z.of_nat bound \/ ~ (p ^ (j + 1) | v)) ->
  multiplicity_upto bound p v = j.
Proof.
  induction bound as [|b IH]; intros j Hp Hj Hdiv Hmax; cbn [multiplicity_upto].
  - lia.
  - assert (Hnz : p ^ Z.of_nat (S b) <> 0).
    { pose proof (pow_ge_1 p (Z.of_nat (S b)) ltac:(lia) ltac:(lia)). lia. }
    destruct (Z.eqb_spec (v mod p ^ Z.of_nat (S b)) 0) as [Hr|Hr].
    + apply Z.mod_divide in Hr; [|assumption].
      destruct Hmax as [->|Hno]; [reflexivity|].
      destruct (Z.eq_dec j (Z.of_nat (S b))) as [->|Hne]; [reflexivity|].
      exfalso. apply Hno.
      apply Z.divide_trans with (p ^ Z.of_nat (S b)); [|assumption].
      apply pow_divide_mono. lia.
    + assert (Hne : j <> Z.of_nat (S b)).
      { intros ->. apply Hr. apply Z.mod_divide; assumption. }
      apply IH; [assumption | lia | assumption |].
      destruct Hmax as [?|Hno]; [contradiction | right; assumption].
Qed.

Section ForRange.

Variable p : Z.
Hypothesis p_ge_2 : 2 <= p.

(* The inner loop of decompose divides by p as often as it can, at most
   [iters] times, and counts the divisions. *)
Lemma for_range_spec (iters : nat) : forall value value_e,
  exists j value',
    0 <= j <= Z.of_nat iters /\ value = p ^ j * value' /\
    (j = Z.of_nat iters \/ value' mod p <> 0) /\
    ModInt.for_range iters p value value_e = Return (value', value_e + j).
Proof.
  induction iters as [|i IH]; intros value value_e; cbn [ModInt.for_range].
  - exists 0, value.
    split; [lia|]. split; [rewrite Z.pow_0_r; lia|].
    split; [left; reflexivity | rewrite Z.add_0_r; reflexivity].
  - rewrite divmod_ok by lia. cbn [bind].
    destruct (Z.eqb_spec (value mod p) 0) as [Hr|Hr].
    + destruct (IH (value / p) (value_e + 1)) as (j & value' & Hj & Ev & Hstop & Hrun).
      exists (j + 1), value'.
      split; [lia|]. split; [|split].
      * rewrite Z.pow_add_r, Z.pow_1_r by lia.
        pose proof (Z.div_mod value p ltac:(lia)) as E.
        rewrite Hr, Z.add_0_r in E. rewrite E at 1. rewrite Ev. ring.
      * destruct Hstop as [->|?]; [left; lia | right; assumption].
      * rewrite Hrun. replace (value_e + (j + 1)) with (value_e + 1 + j) by lia.
        reflexivity.
    + destruct (IH value value_e) as (j & value' & Hj & Ev & Hstop & Hrun).
      assert (j = 0).
      { destruct (Z.eq_dec j 0) as [|Hne]; [assumption|exfalso].
        apply Hr. apply Z.mod_divide; [lia|].
        exists (p ^ (j - 1) * value'). rewrite Ev.
        replace j with (j - 1 + 1) at 1 by lia.
        rewrite Z.pow_add_r, Z.pow_1_r by lia. ring. }
      subst j. rewrite Z.pow_0_r, Z.mul_1_l in Ev. subst value'.
      exists 0, value.
      split; [lia|]. split; [rewrite Z.pow_0_r; lia|].
      split; [right; assumption | exact Hrun].
Qed.

Lemma pow_mul_divide_cancel (j i x : Z) :
  0 <= j -> 0 <= i -> (p ^ (j + i) | p ^ j * x) -> (p ^ i | x).
Proof.
  intros Hj Hi [c Hc]. exists c.
  rewrite Z.pow_add_r in Hc by lia.
  pose proof (pow_ge_1 p j ltac:(lia) Hj).
  apply (Z.mul_cancel_l _ _ (p ^ j)); [lia|]. rewrite Hc. ring.
Qed.

End ForRange.

(** ** decompose *)

Section Decompose.

Variable v : Z.   (* the value of the element *)

(* The working copy [value] has lost factors of earlier primes only: for
   the primes still to come it is divisible by what v is divisible by. *)
Definition agrees (value : Z) (l : dict) : Prop :=
  forall pe i, In pe l -> 0 <= i -> (fst pe ^ i | value) <-> (fst pe ^ i | v).

Lemma nul_pow_of_eq (e value_e : Z) :
  e / value_e - (if e mod value_e =? 0 then 1 else 0) = nul_pow_of e value_e.
Proof. unfold nul_pow_of. destruct (e mod value_e =? 0); lia. Qed.

Lemma decompose_step_skip (nul_pow value m k p e : Z) :
  Z.prime p -> agrees value [(p, e)] -> ~ (p | v) ->
  ModInt.decompose_step (nul_pow, value, m, k) (p, e)
  = Return (nul_pow, value, m, k).
Proof.
  intros Hp Hag Hnd. pose proof (Z.prime_ge_2 _ Hp).
  unfold ModInt.decompose_step. rewrite divmod_ok by lia. cbn [bind].
  destruct (Z.eqb_spec (value mod p) 0) as [Hr|Hr]; [exfalso|reflexivity].
  apply Hnd. apply Z.mod_divide in Hr; [|lia].
  specialize (Hag (p, e) 1 (or_introl eq_refl) ltac:(lia)).
  cbn [fst] in Hag. rewrite Z.pow_1_r in Hag. tauto.
Qed.

Lemma decompose_step_take (nul_pow value m k p e : Z) :
  Z.prime p -> 0 < e -> agrees value [(p, e)] -> (p | v) ->
  exists j value',
    0 <= j /\ value = p ^ (1 + j) * value' /\
    clipped_multiplicity p e v = 1 + j /\
    ModInt.decompose_step (nul_pow, value, m, k) (p, e)
    = Return (Z.max (nul_pow_of e (1 + j)) nul_pow, value', m / p ^ e, k * p ^ e).
Proof.
  intros Hp He Hag Hd. pose proof (Z.prime_ge_2 _ Hp) as Hp2.
  assert (Hagp : forall i, 0 <= i -> (p ^ i | value) <-> (p ^ i | v)).
  { intros i Hi. apply (Hag (p, e) i); [left; reflexivity | assumption]. }
  assert (Hdv : (p | value)).
  { specialize (Hagp 1 ltac:(lia)). rewrite Z.pow_1_r in Hagp. tauto. }
  unfold ModInt.decompose_step. rewrite divmod_ok by lia. cbn [bind].
  apply Z.mod_divide in Hdv; [|lia]. rewrite Hdv. cbn [Z.eqb].
  rewrite pypow_ok by lia. cbn [bind].
  pose proof (pow_ge_1 p e ltac:(lia) ltac:(lia)) as Hpe.
  rewrite floordiv_ok by lia. cbn [bind].
  destruct (for_range_spec p Hp2 (Z.to_nat (e - 1)) (value / p) 1)
    as (j & value' & Hj & Ev & Hstop & Hrun).
  rewrite Hrun. cbn [bind].
  rewrite divmod_ok by lia. cbn [bind].
  rewrite nul_pow_of_eq.
  assert (Evalue : value = p ^ (1 + j) * value').
  { pose proof (Z.div_mod value p ltac:(lia)) as E.
    rewrite Hdv, Z.add_0_r in E. rewrite E at 1. rewrite Ev.
    rewrite Z.pow_add_r, Z.pow_1_r by lia. ring. }
  exists j, value'. split; [lia|]. split; [exact Evalue|]. split; [|reflexivity].
  apply multiplicity_upto_unique; [assumption | lia | |].
  - apply Hagp; [lia|]. exists value'. rewrite Evalue. ring.
  - destruct Hstop as [Hfull|Hr]; [left; lia | right].
    intros Hbig. apply Hagp in Hbig; [|lia].
    apply Hr. apply Z.mod_divide; [lia|].
    rewrite <- (Z.pow_1_r p). apply (pow_mul_divide_cancel p Hp2 (1 + j)); [lia | lia |].
    rewrite <- Evalue. assumption.
Qed.

(* Removing powers of p does not change what another prime divides. *)
Lemma agrees_after (value value' p j : Z) (l : dict) :
  Z.prime p -> 0 <= j -> value = p ^ j * value' ->
  Forall (fun pe => Z.prime (fst pe) /\ 0 < snd pe) l -> ~ In p (keys l) ->
  agrees value l -> agrees value' l.
Proof.
  intros Hp Hj Ev HF Hnotin Hag pe i Hin Hi.
  rewrite <- (Hag pe i Hin Hi).
  rewrite Forall_forall in HF. destruct (HF pe Hin) as [Hq _].
  assert (Hne : fst pe <> p).
  { intros E. apply Hnotin. rewrite <- E. apply in_map. assumption. }
  split; intros Hd.
  - rewrite Ev. apply Z.divide_mul_r. assumption.
  - rewrite Ev in Hd. apply Z.gauss with (p ^ j); [assumption|].
    apply Z.coprime_pow_l; [assumption|]. apply Z.coprime_pow_r; [assumption|].
    apply distinct_primes_coprime; assumption.
Qed.

Lemma agrees_tail (value : Z) (pe : Z * Z) (l : dict) :
  agrees value (pe :: l) -> agrees value l /\ agrees value [pe].
Proof.
  intros Hag. split; intros qe i Hin Hi; apply Hag; try assumption.
  - right. assumption.
  - destruct Hin as [<-|[]]. left. reflexivity.
Qed.

Lemma divides_value_spec (pe : Z * Z) :
  Z.prime (fst pe) -> divides_value v pe = true <-> (fst pe | v).
Proof.
  intros Hp. pose proof (Z.prime_ge_2 _ Hp).
  unfold divides_value. apply mod_zero_divide. lia.
Qed.

(* The loop of decompose over the entries [l] still to come. *)
Lemma decompose_fold (l : dict) : forall nul_pow value m k,
  Forall (fun pe => Z.prime (fst pe) /\ 0 < snd pe) l -> NoDup (keys l) ->
  agrees value l ->
  exists value',
    foldM ModInt.decompose_step (items l) (nul_pow, value, m, k)
    = Return (fold_left (fun acc x => Z.max x acc) (nul_pows l v) nul_pow,
              value', m / dict_prod (shared l v), k * dict_prod (shared l v)).
Proof.
  unfold items.
  induction l as [|[p e] l IH]; intros nul_pow value m k HF Hnd Hag; cbn [foldM].
  - exists value. cbn. rewrite Z.div_1_r, Z.mul_1_r. reflexivity.
  - inversion HF as [|? ? [Hp He] HF']; subst. cbn [fst snd] in *.
    simpl in Hnd. inversion Hnd as [|? ? Hnotin Hnd']; subst.
    destruct (agrees_tail _ _ _ Hag) as [Hagl Hagp].
    unfold nul_pows, shared. cbn [filter].
    destruct (divides_value v (p, e)) eqn:Hdv.
    + apply (divides_value_spec (p, e) Hp) in Hdv. cbn [fst] in Hdv.
      destruct (decompose_step_take nul_pow value m k p e Hp He Hagp Hdv)
        as (j & value1 & Hj & Ev & Hmult & Hrun).
      rewrite Hrun. cbn [bind].
      assert (Hag1 : agrees value1 l).
      { apply (agrees_after value value1 p (1 + j)); try assumption. lia. }
      destruct (IH (Z.max (nul_pow_of e (1 + j)) nul_pow) value1 (m / p ^ e) (k * p ^ e)
                   HF' Hnd' Hag1) as (value' & Hfold).
      exists value'. rewrite Hfold. cbn [map fold_left dict_prod fold_right fst snd].
      rewrite Hmult. unfold nul_pows, shared.
      pose proof (Z.prime_ge_2 _ Hp) as Hp2.
      pose proof (pow_ge_1 p e ltac:(lia) ltac:(lia)) as Hpe.
      rewrite Z.div_div.
      * rewrite (Z.mul_assoc k). reflexivity.
      * lia.
      * assert (Hsub : Forall (fun pe => Z.prime (fst pe) /\ 0 < snd pe)
                              (filter (divides_value v) l)).
        { rewrite Forall_forall in *. intros x Hx. apply HF'.
          apply filter_In in Hx. tauto. }
        pose proof (dict_prod_pos _ Hsub). lia.
    + assert (Hno : ~ (p | v)).
      { intros Hd. apply (divides_value_spec (p, e) Hp) in Hd. congruence. }
      rewrite (decompose_step_skip nul_pow value m k p e Hp Hagp Hno). cbn [bind].
      destruct (IH nul_pow value m k HF' Hnd' Hagl) as (value' & Hfold).
      exists value'. exact Hfold.
Qed.

End Decompose.

(** ** Maxima and clipped multiplicities *)

Lemma fold_max_spec (l : list Z) : forall a,
  a <= fold_left (fun acc x => Z.max x acc) l a /\
  Forall (fun x => x <= fold_left (fun acc x => Z.max x acc) l a) l /\
  (fold_left (fun acc x => Z.max x acc) l a = a \/
   In (fold_left (fun acc x => Z.max x acc) l a) l).
Proof.
  induction l as [|x l IH]; intros a; cbn [fold_left].
  - repeat split; [lia | constructor | left; reflexivity].
  - destruct (IH (Z.max x a)) as (Hle & Hall & Hin).
    split; [lia|]. split.
    + constructor; [lia | assumption].
    + destruct Hin as [E|Hin]; [|right; right; assumption].
      destruct (Z.max_spec x a) as [[_ Em]|[_ Em]]; rewrite Em in *.
      * left. assumption.
      * right. left. symmetry. assumption.
Qed.

Lemma multiplicity_upto_divides (p v : Z) (bound : nat) :
  2 <= p ->
  0 <= multiplicity_upto bound p v <= Z.of_nat bound /\
  (p ^ multiplicity_upto bound p v | v).
Proof.
  intros Hp. induction bound as [|b IH]; cbn [multiplicity_upto].
  - split; [lia|]. rewrite Z.pow_0_r. apply Z.divide_1_l.
  - assert (Hnz : p ^ Z.of_nat (S b) <> 0).
    { pose proof (pow_ge_1 p (Z.of_nat (S b)) ltac:(lia) ltac:(lia)). lia. }
    destruct (Z.eqb_spec (v mod p ^ Z.of_nat (S b)) 0) as [Hr|Hr].
    + split; [lia|]. apply Z.mod_divide; assumption.
    + destruct IH as [Hb Hd]. split; [lia | assumption].
Qed.

Lemma multiplicity_upto_greatest (p v : Z) (bound : nat) (j : Z) :
  2 <= p -> 0 <= j <= Z.of_nat bound -> (p ^ j | v) ->
  j <= multiplicity_upto bound p v.
Proof.
  intros Hp. induction bound as [|b IH]; cbn [multiplicity_upto]; intros Hj Hd.
  - lia.
  - assert (Hnz : p ^ Z.of_nat (S b) <> 0).
    { pose proof (pow_ge_1 p (Z.of_nat (S b)) ltac:(lia) ltac:(lia)). lia. }
    destruct (Z.eqb_spec (v mod p ^ Z.of_nat (S b)) 0) as [Hr|Hr]; [lia|].
    apply IH; [|assumption].
    destruct (Z.eq_dec j (Z.of_nat (S b))) as [->|]; [|lia].
    exfalso. apply Hr. apply Z.mod_divide; assumption.
Qed.

Lemma clipped_multiplicity_bounds (p e v : Z) :
  2 <= p -> 0 < e -> (p | v) -> 1 <= clipped_multiplicity p e v <= e.
Proof.
  intros Hp He Hd. unfold clipped_multiplicity.
  pose proof (multiplicity_upto_divides p v (Z.to_nat e) Hp) as [Hb _].
  pose proof (multiplicity_upto_greatest p v (Z.to_nat e) 1 Hp ltac:(lia)) as Hg.
  rewrite Z.pow_1_r in Hg. specialize (Hg Hd). lia.
Qed.

Lemma nul_pow_of_bounds (e value_e : Z) :
  1 <= value_e <= e -> 0 <= nul_pow_of e value_e <= e.
Proof.
  intros H. unfold nul_pow_of.
  pose proof (Z.div_mod e value_e ltac:(lia)) as E.
  pose proof (Z.mod_pos_bound e value_e ltac:(lia)) as Hm.
  assert (1 <= e / value_e) by (apply Z.div_le_lower_bound; lia).
  assert (e / value_e <= e) by (apply Z.div_le_upper_bound; nia).
  destruct (e mod value_e =? 0); lia.
Qed.

(* Above nul_pow_p, the power of the value is divisible by p^e. *)
Lemma nul_pow_of_enough (e value_e exponent : Z) :
  1 <= value_e <= e -> nul_pow_of e value_e < exponent -> e <= value_e * exponent.
Proof.
  intros H. unfold nul_pow_of.
  pose proof (Z.div_mod e value_e ltac:(lia)) as E.
  pose proof (Z.mod_pos_bound e value_e ltac:(lia)) as Hm.
  destruct (Z.eqb_spec (e mod value_e) 0) as [Hr|Hr]; intros Hlt; nia.
Qed.

(** ** The totient as a rational product *)

Lemma euler_product_phi (d : dict) :
  Forall (fun pe => Z.prime (fst pe) /\ 0 < snd pe) d ->
  (inject_Z (dict_phi d) == euler_product (dict_prod d) (keys d))%Q.
Proof.
  unfold euler_product.
  induction 1 as [|[p e] d [Hp He] _ IH]; cbn [dict_phi dict_prod keys map fold_right fst snd].
  - rewrite Qmult_1_r. reflexivity.
  - cbn [fst snd] in *. pose proof (Z.prime_ge_2 _ Hp) as Hp2.
    replace (p ^ e) with (p * p ^ (e - 1)).
    2:{ replace e with (1 + (e - 1)) at 2 by lia.
        rewrite Z.pow_add_r, Z.pow_1_r by lia. reflexivity. }
    unfold dict_phi, dict_prod, keys in IH.
    rewrite !inject_Z_mult, IH.
    unfold Z.sub. rewrite inject_Z_plus.
    assert (Hnz : ~ (inject_Z p == 0)%Q).
    { intros E. unfold Qeq in E. cbn in E. lia. }
    change (inject_Z (- (1))) with (- (1))%Q.
    field. exact Hnz.
Qed.

(** ** Elements of a constructed ring *)

Section Element.

Variables (a : nat) (n : Z) (d : dict).
Hypothesis n_ge_1 : 1 <= n.
Hypothesis d_factors_n : factorization d n.

Local Abbreviation r := {| addr := a; obj := ModRing.mk n d (dict_phi d) |}.

Lemma factors_prime : Forall (fun pe => Z.prime (fst pe) /\ 0 < snd pe) d.
Proof. apply d_factors_n. Qed.

Lemma init_ok (v : Z) : ModInt.__init__ v r = Return (mint r v).
Proof. unfold ModInt.__init__. cbn. rewrite pymod_ok by lia. reflexivity. Qed.

Lemma value_bounds (v : Z) : 0 <= ModInt.value (mint r v) < n.
Proof. cbn. apply Z.mod_pos_bound. lia. Qed.

Lemma agrees_refl (v : Z) (l : dict) : agrees v v l.
Proof. intros pe i _ _. tauto. Qed.

Lemma decompose_ok (v : Z) :
  ModInt.decompose (mint r v)
  = Return (fold_left (fun acc x => Z.max x acc) (nul_pows d (v mod n)) (-1),
            dict_prod (shared d (v mod n)),
            n / dict_prod (shared d (v mod n))).
Proof.
  unfold ModInt.decompose. cbn [mint ModInt.value ModInt.n ModInt.ring obj
    ModRing.prime_factors ModRing.n].
  destruct d_factors_n as (Hnd & HF & _).
  destruct (decompose_fold (v mod n) d (-1) (v mod n) n 1 HF Hnd (agrees_refl _ _))
    as (value' & Hfold).
  rewrite Hfold. cbn [bind]. rewrite Z.mul_1_l. reflexivity.
Qed.

Lemma shared_in (v : Z) (pe : Z * Z) :
  In pe (shared d v) <-> In pe d /\ (fst pe | v).
Proof.
  unfold shared. rewrite filter_In. split; intros [Hin H]; split; try assumption.
  - apply divides_value_spec; [|assumption].
    pose proof factors_prime as HF. rewrite Forall_forall in HF. apply HF. assumption.
  - apply divides_value_spec; [|assumption].
    pose proof factors_prime as HF. rewrite Forall_forall in HF. apply HF. assumption.
Qed.

(* A value coprime to every prime factor is coprime to the product. *)
Lemma coprime_to_product (v : Z) (l : dict) :
  Forall (fun pe => Z.prime (fst pe) /\ 0 < snd pe) l ->
  (forall pe, In pe l -> ~ (fst pe | v)) -> Z.coprime v (dict_prod l).
Proof.
  induction 1 as [|pe l [Hp He] _ IH]; intros Hno; cbn [dict_prod fold_right].
  - apply Z.coprime_1_r.
  - apply Z.coprime_mul_r.
    + apply Z.coprime_pow_r; [lia|]. apply Z.Symmetric_coprime.
      apply Z.coprime_prime_l; [assumption|]. apply Hno. left. reflexivity.
    + apply IH. intros qe Hin. apply Hno. right. assumption.
Qed.

Lemma key_divides (l : dict) (pe : Z * Z) :
  Forall (fun pe => Z.prime (fst pe) /\ 0 < snd pe) l ->
  In pe l -> (fst pe ^ snd pe | dict_prod l).
Proof.
  induction 1 as [|qe l _ _ IH]; intros Hin; cbn [dict_prod fold_right].
  - destruct Hin.
  - destruct Hin as [->|Hin].
    + apply Z.divide_mul_l. apply Z.divide_refl.
    + apply Z.divide_mul_r. apply IH. assumption.
Qed.

(* No prime factor of the modulus divides v exactly when v is coprime to it. *)
Lemma shared_nil_iff (v : Z) : shared d v = [] <-> Z.gcd v n = 1.
Proof.
  pose proof factors_prime as HF.
  destruct d_factors_n as (_ & _ & Eprod).
  split.
  - intros Hnil. rewrite <- Eprod. apply coprime_to_product; [assumption|].
    intros pe Hin Hdiv.
    assert (Hs : In pe (shared d v)) by (apply shared_in; tauto).
    rewrite Hnil in Hs. destruct Hs.
  - intros Hg. destruct (shared d v) as [|pe l] eqn:Es; [reflexivity|exfalso].
    assert (Hs : In pe (shared d v)) by (rewrite Es; left; reflexivity).
    apply shared_in in Hs. destruct Hs as [Hin Hdiv].
    rewrite Forall_forall in HF. destruct (HF pe Hin) as [Hp He].
    pose proof (Z.prime_ge_2 _ Hp) as Hp2.
    assert (Hdn : (fst pe | n)).
    { rewrite <- Eprod. apply Z.divide_trans with (fst pe ^ snd pe).
      - apply Z.divide_pow_same_r. lia.
      - apply key_divides; [rewrite Forall_forall; assumption | assumption]. }
    pose proof (Z.gcd_greatest _ _ _ Hdiv Hdn) as Hg1. rewrite Hg in Hg1.
    apply Z.divide_1_r_nonneg in Hg1; lia.
Qed.

End Element.

Lemma ring_new_spec (a fuel : nat) (n : Z) :
  1 <= n -> n <= Z.of_nat fuel ->
  exists d,
    ModRing_new a fuel n
    = Return {| addr := a; obj := ModRing.mk n d (dict_phi d) |} /\
    factorization d n.
Proof.
  intros Hn Hfuel. destruct (ring_init_spec fuel n Hn Hfuel) as (d & Hrun & Hfact).
  exists d. unfold ModRing_new. rewrite Hrun. cbn [bind]. auto.
Qed.

Lemma dict_prod_ge_2 (l : dict) :
  Forall (fun pe => Z.prime (fst pe) /\ 0 < snd pe) l -> l <> [] -> 2 <= dict_prod l.
Proof.
  intros HF Hne. destruct l as [|pe l]; [congruence|].
  inversion HF as [|? ? [Hp He] HF']; subst. cbn [dict_prod fold_right].
  pose proof (dict_prod_pos l HF'). pose proof (Z.prime_ge_2 _ Hp).
  assert (fst pe <= fst pe ^ snd pe).
  { rewrite <- (Z.pow_1_r (fst pe)) at 1. apply Z.pow_le_mono_r; lia. }
  unfold dict_prod in *. nia.
Qed.

Lemma shared_factors (d : dict) (v : Z) :
  Forall (fun pe => Z.prime (fst pe) /\ 0 < snd pe) d ->
  Forall (fun pe => Z.prime (fst pe) /\ 0 < snd pe) (shared d v).
Proof.
  intros HF. rewrite Forall_forall in *. intros pe Hin.
  apply HF. unfold shared in Hin. apply filter_In in Hin. tauto.
Qed.

(* Every nul_pow_p comes from a shared prime power p^e and lies in [0, e]. *)
Lemma nul_pows_in (d : dict) (v x : Z) :
  Forall (fun pe => Z.prime (fst pe) /\ 0 < snd pe) d ->
  In x (nul_pows d v) ->
  exists pe, In pe (shared d v) /\
    x = nul_pow_of (snd pe) (clipped_multiplicity (fst pe) (snd pe) v) /\
    0 <= x <= snd pe.
Proof.
  intros HF Hin. unfold nul_pows in Hin. apply in_map_iff in Hin.
  destruct Hin as (pe & <- & Hin). exists pe. split; [assumption|]. split; [reflexivity|].
  pose proof (shared_factors d v HF) as HS. rewrite Forall_forall in HS.
  destruct (HS pe Hin) as [Hp He]. pose proof (Z.prime_ge_2 _ Hp).
  apply nul_pow_of_bounds. apply clipped_multiplicity_bounds; [lia | assumption |].
  unfold shared in Hin. apply filter_In in Hin.
  apply divides_value_spec; tauto.
Qed.

Lemma nul_pow_maximum (d : dict) (v : Z) :
  Forall (fun pe => Z.prime (fst pe) /\ 0 < snd pe) d -> shared d v <> [] ->
  is_maximum (fold_left (fun acc x => Z.max x acc) (nul_pows d v) (-1)) (nul_pows d v).
Proof.
  intros HF Hne.
  destruct (fold_max_spec (nul_pows d v) (-1)) as (Hle & Hall & Hin).
  split; [|assumption].
  destruct Hin as [E|Hin]; [exfalso|assumption].
  destruct (nul_pows d v) as [|x l] eqn:El.
  - unfold nul_pows in El. apply map_eq_nil in El. contradiction.
  - assert (Hx : In x (nul_pows d v)) by (rewrite El; left; reflexivity).
    destruct (nul_pows_in d v x HF Hx) as (pe & _ & _ & Hx0).
    inversion Hall; subst. lia.
Qed.

(** C3: for an element of a ring of modulus n >= 2, decompose returns the
    sentinel (-1, 1, n) exactly when the value is coprime to n; otherwise
    it returns (nul_pow, k, m) with k the product of p^e over the prime
    factors p of n that divide the value, m = n / k, and nul_pow the
    maximum over those p of nul_pow_p, computed from the multiplicity of p
    in the value clipped at e. *)
Theorem decompose_spec (a fuel : nat) (n v : Z) :
  2 <= n -> n <= Z.of_nat fuel ->
  exists r x nul_pow k m,
    ModRing_new a fuel n = Return r /\
    ModRing_call r v = Return x /\
    ModInt.decompose x = Return (nul_pow, k, m) /\
    ((nul_pow, k, m) = (-1, 1, n) <-> Z.gcd (ModInt.value x) n = 1) /\
    (Z.gcd (ModInt.value x) n <> 1 ->
       k = dict_prod (shared (ModRing.prime_factors (obj r)) (ModInt.value x)) /\
       m = n / k /\
       is_maximum nul_pow
         (nul_pows (ModRing.prime_factors (obj r)) (ModInt.value x))).
Proof.
  intros Hn Hfuel.
  destruct (ring_new_spec a fuel n ltac:(lia) Hfuel) as (d & Hnew & Hfact).
  pose proof (factors_prime n d Hfact) as HF.
  eexists. exists (mint {| addr := a; obj := ModRing.mk n d (dict_phi d) |} v).
  do 3 eexists.
  split; [exact Hnew|].
  split; [apply (init_ok a n d); lia|].
  split; [apply (decompose_ok a n d); (lia || assumption)|].
  cbn [mint ModInt.value obj ModRing.n ModRing.prime_factors].
  pose proof (shared_nil_iff n d Hfact (v mod n)) as Hiff.
  split; [split|].
  - intros E. injection E as _ Ek _.
    apply Hiff. destruct (shared d (v mod n)) as [|pe l] eqn:Es; [reflexivity|exfalso].
    pose proof (dict_prod_ge_2 (shared d (v mod n)) (shared_factors d _ HF)) as H2.
    rewrite Es in H2. specialize (H2 ltac:(discriminate)). lia.
  - intros Hg. apply Hiff in Hg. unfold nul_pows. rewrite Hg. cbn.
    rewrite Z.div_1_r. reflexivity.
  - intros Hg. split; [reflexivity|]. split; [reflexivity|].
    apply nul_pow_maximum; [assumption|]. intros Hnil. apply Hg. apply Hiff. assumption.
Qed.

Lemma decompose_spec_witness :
  exists r x nul_pow k m,
    ModRing_new 0 12 12 = Return r /\
    ModRing_call r 6 = Return x /\
    ModInt.decompose x = Return (nul_pow, k, m) /\
    ((nul_pow, k, m) = (-1, 1, 12) <-> Z.gcd (ModInt.value x) 12 = 1) /\
    (Z.gcd (ModInt.value x) 12 <> 1 ->
       k = dict_prod (shared (ModRing.prime_factors (obj r)) (ModInt.value x)) /\
       m = 12 / k /\
       is_maximum nul_pow
         (nul_pows (ModRing.prime_factors (obj r)) (ModInt.value x))).
Proof. apply (decompose_spec 0 12 12 6); simpl; lia. Defined.

(** C4: for every n >= 2 the ring constructed from n has a prime_factors
    mapping whose keys are distinct primes with positive exponents and whose
    product of p^e is n. *)
Theorem factorize_prime_factorization (a fuel : nat) (n : Z) :
  2 <= n -> n <= Z.of_nat fuel ->
  exists r,
    ModRing_new a fuel n = Return r /\
    ModRing.factorize fuel n = Return (ModRing.prime_factors (obj r)) /\
    (forall p, In p (keys (ModRing.prime_factors (obj r))) -> Z.prime p) /\
    dict_prod (ModRing.prime_factors (obj r)) = n /\
    NoDup (keys (ModRing.prime_factors (obj r))) /\
    (forall p e, In (p, e) (ModRing.prime_factors (obj r)) -> 0 < e).
Proof.
  intros Hn Hfuel.
  destruct (factorize_spec n fuel ltac:(lia) Hfuel) as (d & Hrun & Hfact).
  exists {| addr := a; obj := ModRing.mk n d (dict_phi d) |}.
  cbn [obj ModRing.prime_factors].
  split.
  { unfold ModRing_new, ModRing.__init__. rewrite Hrun. cbn [bind].
    rewrite (compute_phi_spec n d Hfact). reflexivity. }
  split; [exact Hrun|].
  destruct Hfact as (Hnd & HF & Hprod). rewrite Forall_forall in HF.
  split; [|split; [assumption | split; [assumption|]]].
  - intros p Hin. unfold keys in Hin. apply in_map_iff in Hin.
    destruct Hin as (pe & <- & Hin). apply HF. assumption.
  - intros p e Hin. apply (HF (p, e) Hin).
Qed.

Lemma factorize_prime_factorization_witness :
  exists r,
    ModRing_new 0 360 360 = Return r /\
    ModRing.factorize 360 360 = Return (ModRing.prime_factors (obj r)) /\
    (forall p, In p (keys (ModRing.prime_factors (obj r))) -> Z.prime p) /\
    dict_prod (ModRing.prime_factors (obj r)) = 360 /\
    NoDup (keys (ModRing.prime_factors (obj r))) /\
    (forall p e, In (p, e) (ModRing.prime_factors (obj r)) -> 0 < e).
Proof. apply (factorize_prime_factorization 0 360 360); simpl; lia. Defined.

(** C5: for every n >= 2 the totient field of the ring is Euler's phi(n),
    the count of integers in [1, n) coprime to n, and it equals n times the
    product of (1 - 1/p) over the distinct prime factors p of n exactly, as
    rationals. *)
Theorem phi_is_totient (a fuel : nat) (n : Z) :
  2 <= n -> n <= Z.of_nat fuel ->
  exists r,
    ModRing_new a fuel n = Return r /\
    ModRing.phi (obj r) = coprime_count n /\
    (inject_Z (ModRing.phi (obj r))
     == euler_product n (keys (ModRing.prime_factors (obj r))))%Q.
Proof.
  intros Hn Hfuel.
  destruct (ring_new_spec a fuel n ltac:(lia) Hfuel) as (d & Hnew & Hfact).
  eexists. split; [exact Hnew|]. cbn [obj ModRing.phi ModRing.prime_factors].
  split.
  - rewrite (dict_phi_totient d n Hfact). apply NatBridge.totientZ_count. assumption.
  - destruct Hfact as (_ & HF & <-). apply euler_product_phi. assumption.
Qed.

Lemma phi_is_totient_witness :
  exists r,
    ModRing_new 0 12 12 = Return r /\
    ModRing.phi (obj r) = coprime_count 12 /\
    (inject_Z (ModRing.phi (obj r))
     == euler_product 12 (keys (ModRing.prime_factors (obj r))))%Q.
Proof. apply (phi_is_totient 0 12 12); simpl; lia. Defined.

(** ** Congruences *)

Lemma cong_iff_divide (x y b : Z) :
  b <> 0 -> x mod b = y mod b <-> (b | x - y).
Proof.
  intros Hb. split.
  - intros E. exists (x / b - y / b).
    pose proof (Z.div_mod x b Hb). pose proof (Z.div_mod y b Hb). nia.
  - intros [c Hc]. replace x with (y + c * b) by lia.
    apply Z_mod_plus_full.
Qed.

Lemma coprime_divide_mul (a b c : Z) :
  Z.coprime a b -> (a | c) -> (b | c) -> (a * b | c).
Proof.
  intros Hco [x Hx] Hb. subst c.
  assert (Hbx : (b | x)).
  { apply Z.gauss with a; [rewrite Z.mul_comm; assumption|].
    apply Z.Symmetric_coprime. assumption. }
  destruct Hbx as [y ->]. exists y. ring.
Qed.

(* The Chinese remainder theorem, as far as it is used here. *)
Lemma cong_coprime_mul (x y k m : Z) :
  k <> 0 -> m <> 0 -> Z.coprime k m ->
  x mod k = y mod k -> x mod m = y mod m -> x mod (k * m) = y mod (k * m).
Proof.
  intros Hk Hm Hco Ek Em.
  apply cong_iff_divide; [lia|].
  apply coprime_divide_mul; [assumption | |]; apply cong_iff_divide; assumption.
Qed.

Lemma cong_coprime_split (x y k m n : Z) :
  n = k * m -> k <> 0 -> m <> 0 -> Z.coprime k m ->
  x mod k = y mod k -> x mod m = y mod m -> x mod n = y mod n.
Proof. intros ->. apply cong_coprime_mul. Qed.

(* Euler's theorem lets an exponent be reduced modulo the totient. *)
Lemma Euler_reduce (b n e : Z) :
  0 <= b -> 0 < n -> Z.gcd b n = 1 -> 0 <= e ->
  b ^ (e mod NatBridge.totientZ n) mod n = b ^ e mod n.
Proof.
  intros Hb Hn Hg He.
  pose proof (NatBridge.totientZ_pos n Hn) as Hphi.
  pose proof (NatBridge.Euler_Z b n Hb Hn Hg) as HE.
  set (phi := NatBridge.totientZ n) in *.
  pose proof (Z.div_mod e phi ltac:(lia)) as Ee.
  pose proof (Z.mod_pos_bound e phi Hphi) as Hr.
  assert (Hq : 0 <= e / phi) by (apply Z.div_pos; lia).
  rewrite Ee at 2.
  rewrite Z.pow_add_r by nia. rewrite Z.pow_mul_r by lia.
  rewrite Z.mul_mod by lia.
  rewrite <- (Z.mod_pow_l (b ^ phi)), HE, Z.mod_pow_l, Z.pow_1_l by assumption.
  rewrite <- Z.mul_mod by lia. rewrite Z.mul_1_l. reflexivity.
Qed.

(** ** Splitting the modulus along a value *)

Section Split.

Variables (d : dict) (v : Z).
Hypothesis d_primes : Forall (fun pe => Z.prime (fst pe) /\ 0 < snd pe) d.
Hypothesis d_nodup : NoDup (keys d).

Lemma dict_prod_split (l : dict) :
  dict_prod l = dict_prod (shared l v) * dict_prod (unshared l v).
Proof.
  unfold shared, unshared.
  induction l as [|pe l IH]; cbn [filter]; [reflexivity|].
  rewrite dict_prod_cons, IH.
  destruct (divides_value v pe); cbn [negb]; rewrite dict_prod_cons; ring.
Qed.

Lemma unshared_factors :
  Forall (fun pe => Z.prime (fst pe) /\ 0 < snd pe) (unshared d v).
Proof.
  rewrite Forall_forall in *. intros pe Hin.
  apply d_primes. unfold unshared in Hin. apply filter_In in Hin. tauto.
Qed.

Lemma filter_keys_nodup (f : Z * Z -> bool) (l : dict) :
  NoDup (keys l) -> NoDup (keys (filter f l)).
Proof.
  induction l as [|pe l IH]; cbn [filter keys map]; intros Hnd; [constructor|].
  inversion Hnd as [|? ? Hnotin Hnd']; subst.
  destruct (f pe); cbn [keys map]; [|apply IH; assumption].
  constructor; [|apply IH; assumption].
  intros Hin. apply Hnotin. unfold keys in *. apply in_map_iff in Hin.
  destruct Hin as (qe & E & Hin). apply filter_In in Hin.
  apply in_map_iff. exists qe. tauto.
Qed.

(* An entry, given its key: keys are not repeated. *)
Lemma key_unique (l : dict) (pe qe : Z * Z) :
  NoDup (keys l) -> In pe l -> In qe l -> fst pe = fst qe -> pe = qe.
Proof.
  induction l as [|xe l IH]; cbn [keys map]; intros Hnd Hp Hq E; [destruct Hp|].
  inversion Hnd as [|? ? Hnotin Hnd']; subst.
  destruct Hp as [->|Hp], Hq as [->|Hq]; try reflexivity.
  - exfalso. apply Hnotin. rewrite E. apply in_map. assumption.
  - exfalso. apply Hnotin. rewrite <- E. apply in_map. assumption.
  - apply IH; assumption.
Qed.

(* The part of the modulus that shares primes with v is coprime to the rest. *)
Lemma shared_coprime_unshared :
  Z.coprime (dict_prod (shared d v)) (dict_prod (unshared d v)).
Proof.
  assert (H : forall l, (forall pe, In pe l -> In pe (shared d v)) ->
                        Z.coprime (dict_prod l) (dict_prod (unshared d v))).
  { induction l as [|pe l IH]; intros Hsub; cbn [dict_prod fold_right].
    - apply Z.coprime_1_l.
    - apply Z.coprime_mul_l; [|apply IH; intros qe Hq; apply Hsub; right; assumption].
      assert (Hpe : In pe (shared d v)) by (apply Hsub; left; reflexivity).
      unfold shared in Hpe. apply filter_In in Hpe. destruct Hpe as [Hin Hdv].
      pose proof d_primes as HF. rewrite Forall_forall in HF.
      destruct (HF pe Hin) as [Hp He].
      apply Z.coprime_pow_l; [lia|].
      apply coprime_dict_prod; [assumption | exact unshared_factors |].
      intros Hk. unfold keys in Hk. apply in_map_iff in Hk.
      destruct Hk as (qe & E & Hq). unfold unshared in Hq. apply filter_In in Hq.
      destruct Hq as [Hq Hndv].
      assert (qe = pe) by (apply (key_unique d); assumption). subst qe.
      rewrite Hdv in Hndv. discriminate. }
  apply H. auto.
Qed.

Lemma value_coprime_unshared : Z.coprime v (dict_prod (unshared d v)).
Proof.
  assert (H : forall l, (forall pe, In pe l -> In pe (unshared d v)) ->
                        Z.coprime v (dict_prod l)).
  { induction l as [|pe l IH]; intros Hsub; cbn [dict_prod fold_right].
    - apply Z.coprime_1_r.
    - apply Z.coprime_mul_r; [|apply IH; intros qe Hq; apply Hsub; right; assumption].
      assert (Hpe : In pe (unshared d v)) by (apply Hsub; left; reflexivity).
      unfold unshared in Hpe. apply filter_In in Hpe. destruct Hpe as [Hin Hndv].
      pose proof d_primes as HF. rewrite Forall_forall in HF.
      destruct (HF pe Hin) as [Hp He].
      apply Z.coprime_pow_r; [lia|]. apply Z.Symmetric_coprime.
      apply Z.coprime_prime_l; [assumption|].
      intros Hd. apply (divides_value_spec v pe Hp) in Hd.
      rewrite Hd in Hndv. discriminate. }
  apply H. auto.
Qed.

(* Beyond nul_pow the power of v vanishes modulo the shared part. *)
Lemma shared_divides_power (exponent : Z) :
  0 <= v ->
  (forall x, In x (nul_pows d v) -> x < exponent) ->
  (dict_prod (shared d v) | v ^ exponent).
Proof.
  intros Hv Hbig.
  assert (H : forall l, (forall pe, In pe l -> In pe (shared d v)) ->
                        NoDup (keys l) -> (dict_prod l | v ^ exponent)).
  { induction l as [|pe l IH]; intros Hsub Hnd; cbn [dict_prod fold_right].
    - apply Z.divide_1_l.
    - cbn [keys map] in Hnd. inversion Hnd as [|? ? Hnotin Hnd']; subst.
      assert (Hl : forall qe, In qe l -> In qe (shared d v))
        by (intros qe Hq; apply Hsub; right; assumption).
      assert (HFl : Forall (fun pe => Z.prime (fst pe) /\ 0 < snd pe) l).
      { pose proof (shared_factors d v d_primes) as HS.
        rewrite Forall_forall in *. intros qe Hq. apply HS. apply Hl. assumption. }
      assert (Hpe : In pe (shared d v)) by (apply Hsub; left; reflexivity).
      assert (Hpe' := Hpe). unfold shared in Hpe'. apply filter_In in Hpe'.
      destruct Hpe' as [Hin Hdv].
      pose proof d_primes as HF. rewrite Forall_forall in HF.
      destruct (HF pe Hin) as [Hp He]. pose proof (Z.prime_ge_2 _ Hp) as Hp2.
      apply (divides_value_spec v pe Hp) in Hdv.
      apply coprime_divide_mul; [| |apply IH; assumption].
      + apply Z.coprime_pow_l; [lia|]. apply coprime_dict_prod; assumption.
      + pose proof (clipped_multiplicity_bounds _ (snd pe) v Hp2 He Hdv) as Hb.
        pose proof (multiplicity_upto_divides (fst pe) v (Z.to_nat (snd pe)) Hp2)
          as [_ Hdiv].
        fold (clipped_multiplicity (fst pe) (snd pe) v) in Hdiv.
        set (ve := clipped_multiplicity (fst pe) (snd pe) v) in *.
        assert (Hlt : nul_pow_of (snd pe) ve < exponent).
        { apply Hbig. unfold nul_pows. apply in_map_iff. exists pe. auto. }
        pose proof (nul_pow_of_enough _ _ _ Hb Hlt) as Henough.
        pose proof (nul_pow_of_bounds _ _ Hb) as Hnp.
        apply Z.divide_trans with (fst pe ^ (ve * exponent)).
        * apply pow_divide_mono. lia.
        * rewrite Z.pow_mul_r by lia.
          destruct Hdiv as [c Hc]. rewrite Hc at 1.
          rewrite Z.pow_mul_l. apply Z.divide_mul_r. apply Z.divide_refl. }
  apply H; [auto|]. apply filter_keys_nodup. assumption.
Qed.

End Split.

(** ** __pow__, path by path *)

Section Power.

Variables (a fuel : nat) (n : Z) (d : dict).
Hypothesis n_ge_1 : 1 <= n.
Hypothesis d_factors_n : factorization d n.

Local Abbreviation r := {| addr := a; obj := ModRing.mk n d (dict_phi d) |}.

Variable v : Z.
Local Abbreviation w := (v mod n).
Local Abbreviation nul_pow := (fold_left (fun acc x => Z.max x acc) (nul_pows d w) (-1)).
Local Abbreviation k := (dict_prod (shared d w)).
Local Abbreviation m := (n / k).

Lemma phi_totient : dict_phi d = NatBridge.totientZ n.
Proof. apply dict_phi_totient. assumption. Qed.

Lemma all_nonzero_mod_spec (l : dict) :
  Forall (fun pe => Z.prime (fst pe) /\ 0 < snd pe) l ->
  ModInt.all_nonzero_mod w (keys l)
  = Return (match shared l w with [] => true | _ :: _ => false end).
Proof.
  unfold shared.
  induction 1 as [|pe l [Hp He] _ IH]; cbn [keys map ModInt.all_nonzero_mod filter].
  - reflexivity.
  - pose proof (Z.prime_ge_2 _ Hp). rewrite pymod_ok by lia. cbn [bind].
    unfold divides_value at 1.
    destruct (w mod fst pe =? 0); [reflexivity | exact IH].
Qed.

Lemma is_coprime_ok :
  ModInt.is_coprime (mint r v)
  = Return (match shared d w with [] => true | _ :: _ => false end).
Proof.
  unfold ModInt.is_coprime. apply all_nonzero_mod_spec. apply d_factors_n.
Qed.

Lemma pow_zero (exponent : Z) (short : bool) :
  w = 0 ->
  ModInt.__pow__ fuel (mint r v) exponent short
  = Raise (ValueError ModInt.zero_power).
Proof.
  intros Hw. unfold ModInt.__pow__. cbn [mint ModInt.value obj ModRing.n].
  rewrite Hw. reflexivity.
Qed.

Lemma pow_one (exponent : Z) (short : bool) :
  w <> 0 -> exponent = 0 \/ w = 1 ->
  ModInt.__pow__ fuel (mint r v) exponent short = Return (ModInt.Elt (mint r 1)).
Proof.
  intros Hw H1. unfold ModInt.__pow__. cbn [mint ModInt.value ModInt.ring obj ModRing.n].
  destruct (Z.eqb_spec w 0) as [|_]; [contradiction|].
  assert (E : (exponent =? 0) || (w =? 1) = true).
  { apply orb_true_iff. rewrite !Z.eqb_eq. assumption. }
  rewrite E. rewrite (init_ok a n d n_ge_1). reflexivity.
Qed.

(* The tests that every other path has passed. *)
Lemma pow_tests (exponent : Z) :
  w <> 0 -> w <> 1 -> exponent <> 0 ->
  (w =? 0) = false /\ (exponent =? 0) || (w =? 1) = false.
Proof.
  intros H0 H1 He. split; [apply Z.eqb_neq; assumption|].
  apply orb_false_iff. rewrite !Z.eqb_neq. tauto.
Qed.

Lemma pow_direct (exponent : Z) :
  w <> 0 -> w <> 1 -> 0 < exponent ->
  ModInt.__pow__ fuel (mint r v) exponent false
  = Return (ModInt.Elt (mint r (w ^ exponent))).
Proof.
  intros H0 H1 He. destruct (pow_tests exponent H0 H1 ltac:(lia)) as [T0 T1].
  unfold ModInt.__pow__. cbn [mint ModInt.value ModInt.ring obj ModRing.n].
  rewrite T0, T1.
  destruct (Z.ltb_spec exponent 0); [lia|].
  rewrite pypow_ok by lia. cbn [bind].
  rewrite (init_ok a n d n_ge_1). reflexivity.
Qed.

Lemma pow_negative_unit (exponent : Z) (short : bool) :
  w <> 0 -> w <> 1 -> exponent < 0 -> shared d w = [] ->
  ModInt.__pow__ fuel (mint r v) exponent short
  = Return (ModInt.Elt (mint r (w ^ (exponent mod NatBridge.totientZ n)))).
Proof.
  intros H0 H1 He Hs. destruct (pow_tests exponent H0 H1 ltac:(lia)) as [T0 T1].
  pose proof (NatBridge.totientZ_pos n ltac:(lia)) as Hphi.
  rewrite <- phi_totient in *.
  unfold ModInt.__pow__. rewrite is_coprime_ok.
  cbn [mint ModInt.value ModInt.ring obj ModRing.n ModRing.phi].
  rewrite T0, T1, Hs.
  destruct (Z.ltb_spec exponent 0); [|lia]. cbn [bind assert_].
  rewrite pymod_ok by lia. cbn [bind].
  pose proof (Z.mod_pos_bound exponent _ Hphi).
  rewrite pypow_ok by lia. cbn [bind].
  rewrite (init_ok a n d n_ge_1). reflexivity.
Qed.

Lemma pow_negative_nonunit (exponent : Z) (short : bool) :
  w <> 0 -> w <> 1 -> exponent < 0 -> shared d w <> [] ->
  ModInt.__pow__ fuel (mint r v) exponent short
  = Raise (AssertionError ModInt.non_coprime).
Proof.
  intros H0 H1 He Hs. destruct (pow_tests exponent H0 H1 ltac:(lia)) as [T0 T1].
  unfold ModInt.__pow__. rewrite is_coprime_ok.
  cbn [mint ModInt.value ModInt.ring obj ModRing.n ModRing.phi].
  rewrite T0, T1.
  destruct (Z.ltb_spec exponent 0); [|lia].
  destruct (shared d w); [congruence | reflexivity].
Qed.

Lemma nul_pow_unit : shared d w = [] -> nul_pow = -1.
Proof. intros Hs. unfold nul_pows. rewrite Hs. reflexivity. Qed.

Lemma nul_pow_nonneg : shared d w <> [] -> 0 <= nul_pow.
Proof.
  intros Hs.
  destruct (nul_pow_maximum d w (factors_prime n d d_factors_n) Hs) as [Hin _].
 
  destruct (nul_pows_in d w nul_pow (factors_prime n d d_factors_n) Hin)
    as (pe & _ & _ & Hb). lia.
Qed.

Lemma pow_short_unit (exponent : Z) :
  w <> 0 -> w <> 1 -> 0 < exponent -> shared d w = [] ->
  ModInt.__pow__ fuel (mint r v) exponent true
  = Return (ModInt.Elt (mint r (w ^ (exponent mod NatBridge.totientZ n)))).
Proof.
  intros H0 H1 He Hs. destruct (pow_tests exponent H0 H1 ltac:(lia)) as [T0 T1].
  pose proof (NatBridge.totientZ_pos n ltac:(lia)) as Hphi.
  rewrite <- phi_totient in *.
  unfold ModInt.__pow__. rewrite (decompose_ok a n d d_factors_n).
  cbn [mint ModInt.value ModInt.ring obj ModRing.n ModRing.phi bind].
  rewrite T0, T1, (nul_pow_unit Hs).
  destruct (Z.ltb_spec exponent 0); [lia|]. cbn [Z.eqb Pos.eqb].
  rewrite pymod_ok by lia. cbn [bind].
  pose proof (Z.mod_pos_bound exponent _ Hphi).
  rewrite pypow_ok by lia. cbn [bind].
  rewrite (init_ok a n d n_ge_1). reflexivity.
Qed.

Lemma k_times_m : n = k * m /\ 1 <= k /\ 1 <= m /\ m = dict_prod (unshared d w).
Proof.
  pose proof (factors_prime n d d_factors_n) as HF.
  destruct d_factors_n as (_ & _ & Eprod).
  pose proof (dict_prod_split w d) as Es. rewrite Eprod in Es.
  pose proof (dict_prod_pos _ (shared_factors d w HF)) as Hk.
  pose proof (dict_prod_pos _ (unshared_factors d w HF)) as Hm.
  assert (Em : m = dict_prod (unshared d w)).
  { rewrite Es at 1. rewrite Z.mul_comm. apply Z.div_mul. lia. }
  rewrite Em. repeat split; assumption.
Qed.

Lemma pow_short_fast (exponent : Z) :
  n <= Z.of_nat fuel ->
  w <> 0 -> w <> 1 -> shared d w <> [] -> nul_pow < exponent ->
  ModInt.__pow__ fuel (mint r v) exponent true
  = Return (ModInt.Elt (mint r (k ^ NatBridge.totientZ m
                                * w ^ (exponent mod NatBridge.totientZ m)))).
Proof.
  intros enough_fuel H0 H1 Hs He. pose proof (nul_pow_nonneg Hs) as Hnp.
  destruct (pow_tests exponent H0 H1 ltac:(lia)) as [T0 T1].
  destruct k_times_m as (Enkm & Hk & Hm & _).
  pose proof (NatBridge.totientZ_pos m ltac:(lia)) as Hphi.
  unfold ModInt.__pow__. rewrite (decompose_ok a n d d_factors_n).
  cbn [mint ModInt.value ModInt.ring obj ModRing.n ModRing.phi bind].
  rewrite T0, T1.
  destruct (Z.ltb_spec exponent 0); [lia|].
  destruct (Z.eqb_spec nul_pow (-1)); [lia|].
  destruct (Z.gtb_spec exponent nul_pow); [|lia].
  destruct (ring_init_spec fuel m Hm ltac:(nia)) as (dm & Hsub & Hfm).
  rewrite Hsub. cbn [bind ModRing.phi]. rewrite (dict_phi_totient dm m Hfm).
  rewrite pymod_ok by lia. cbn [bind].
  pose proof (Z.mod_pos_bound exponent _ Hphi).
  rewrite !pypow_ok by lia. cbn [bind].
  rewrite (init_ok a n d n_ge_1). reflexivity.
Qed.

Lemma pow_short_fallthrough (exponent : Z) :
  w <> 0 -> w <> 1 -> shared d w <> [] -> 0 < exponent <= nul_pow ->
  ModInt.__pow__ fuel (mint r v) exponent true = Return ModInt.None_.
Proof.
  intros H0 H1 Hs He.
  destruct (pow_tests exponent H0 H1 ltac:(lia)) as [T0 T1].
  unfold ModInt.__pow__. rewrite (decompose_ok a n d d_factors_n).
  cbn [mint ModInt.value ModInt.ring obj ModRing.n ModRing.phi bind].
  rewrite T0, T1.
  destruct (Z.ltb_spec exponent 0); [lia|].
  destruct (Z.eqb_spec nul_pow (-1)); [lia|].
  destruct (Z.gtb_spec exponent nul_pow); [lia|]. reflexivity.
Qed.

Lemma w_bounds : 0 <= w < n.
Proof. apply Z.mod_pos_bound. lia. Qed.

(* What the unit path computes is the power. *)
Lemma unit_value (exponent : Z) :
  shared d w = [] -> 0 <= exponent ->
  w ^ (exponent mod NatBridge.totientZ n) mod n = w ^ exponent mod n.
Proof.
  intros Hs He. pose proof w_bounds.
  apply Euler_reduce; [lia | lia | | assumption].
  apply (shared_nil_iff n d d_factors_n). assumption.
Qed.

(* What the fast path computes is the power. *)
Lemma fast_value (exponent : Z) :
  nul_pow < exponent -> 0 <= exponent ->
  (k ^ NatBridge.totientZ m * w ^ (exponent mod NatBridge.totientZ m)) mod n
  = w ^ exponent mod n.
Proof.
  intros He He0. pose proof w_bounds as Hw.
  pose proof (factors_prime n d d_factors_n) as HF.
  destruct d_factors_n as (Hnd & _ & _).
  destruct k_times_m as (Enkm & Hk & Hm & Em).
  pose proof (NatBridge.totientZ_pos m ltac:(lia)) as Hphi.
  pose proof (shared_coprime_unshared d w HF Hnd) as Hco.
  rewrite <- Em in Hco.
  pose proof (value_coprime_unshared d w HF) as Hwm. rewrite <- Em in Hwm.
  apply (cong_coprime_split _ _ k m n Enkm); [lia | lia | assumption | |].
  - (* modulo k both sides vanish *)
    apply cong_iff_divide; [lia|]. apply Z.divide_sub_r.
    + apply Z.divide_mul_l. rewrite <- (Z.pow_1_r k) at 1.
      apply pow_divide_mono. lia.
    + apply shared_divides_power; try assumption; [lia|].
      intros x Hx. destruct (fold_max_spec (nul_pows d w) (-1)) as (_ & Hall & _).
      rewrite Forall_forall in Hall. specialize (Hall x Hx). lia.
  - (* modulo m Euler's theorem applies to k and to w *)
    rewrite Z.mul_mod by lia.
    rewrite (NatBridge.Euler_Z k m) by (assumption || lia).
    rewrite (Euler_reduce w m exponent) by (assumption || lia).
    rewrite <- Z.mul_mod by lia. rewrite Z.mul_1_l. reflexivity.
Qed.

End Power.

(** ** Results on whole calls *)

Lemma eq_same_ring (r : ModRingRef) (c1 c2 : Z) :
  ModInt.__eq__ (mint r c1) (ModInt.Elt (mint r c2))
  = Return (c2 mod ModRing.n (obj r) =? c1 mod ModRing.n (obj r)).
Proof.
  unfold ModInt.__eq__. cbn [ModInt.assert_type bind mint ModInt.ring ModInt.value].
  unfold ring_is. rewrite Nat.eqb_refl. reflexivity.
Qed.

Lemma mul_same_ring (a : nat) (n : Z) (d : dict) (c1 c2 : Z) :
  1 <= n ->
  let r := {| addr := a; obj := ModRing.mk n d (dict_phi d) |} in
  ModInt.__mul__ (mint r c1) (ModInt.Elt (mint r c2))
  = Return (mint r (c1 mod n * (c2 mod n))).
Proof.
  intros Hn r. unfold ModInt.__mul__.
  cbn [ModInt.assert_type bind mint ModInt.ring ModInt.value].
  unfold ring_is. rewrite Nat.eqb_refl. cbn [assert_ bind].
  apply (init_ok a n d Hn).
Qed.

(* With the shortcut, above nul_pow, the result is the power. *)
Lemma pow_short_value (a fuel : nat) (n : Z) (d : dict) (v exponent : Z) :
  1 <= n -> n <= Z.of_nat fuel -> factorization d n ->
  v mod n <> 0 -> v mod n <> 1 -> 0 < exponent ->
  fold_left (fun acc x => Z.max x acc) (nul_pows d (v mod n)) (-1) < exponent ->
  let r := {| addr := a; obj := ModRing.mk n d (dict_phi d) |} in
  exists c,
    ModInt.__pow__ fuel (mint r v) exponent true = Return (ModInt.Elt (mint r c)) /\
    c mod n = (v mod n) ^ exponent mod n.
Proof.
  intros Hn Hfuel Hfact H0 H1 He Hnp r.
  destruct (shared d (v mod n)) as [|pe l] eqn:Hs.
  - eexists. split.
    + apply (pow_short_unit a fuel n d); assumption.
    + apply (unit_value n d); [assumption | assumption | assumption | lia].
  - eexists. split.
    + apply (pow_short_fast a fuel n d); try assumption. rewrite Hs. discriminate.
    + apply (fast_value n d); [assumption | assumption | assumption | lia].
Qed.

Lemma exponent_bound (d : dict) (n : Z) (pe : Z * Z) :
  1 <= n -> factorization d n -> In pe d -> 2 ^ snd pe <= n.
Proof.
  intros Hn (_ & HF & Eprod) Hin.
  pose proof (key_divides d pe HF Hin) as Hdiv. rewrite Eprod in Hdiv.
  rewrite Forall_forall in HF. destruct (HF pe Hin) as [Hp He].
  pose proof (Z.prime_ge_2 _ Hp).
  apply Z.divide_pos_le in Hdiv; [|lia].
  assert (2 ^ snd pe <= fst pe ^ snd pe) by (apply Z.pow_le_mono_l; lia).
  lia.
Qed.

Lemma nul_pow_small (d : dict) (n w bound : Z) :
  1 <= n -> factorization d n -> 0 <= bound -> n < 2 ^ bound ->
  fold_left (fun acc x => Z.max x acc) (nul_pows d w) (-1) < bound.
Proof.
  intros Hn Hfact Hb Hlt.
  pose proof (factors_prime n d Hfact) as HF.
  destruct (fold_max_spec (nul_pows d w) (-1)) as (_ & _ & [E|Hin]); [lia|].
  destruct (nul_pows_in d w _ HF Hin) as (pe & Hs & _ & Hle).
  unfold shared in Hs. apply filter_In in Hs. destruct Hs as [Hd _].
  pose proof (exponent_bound d n pe Hn Hfact Hd) as H2.
  destruct (Z_lt_le_dec (snd pe) bound) as [|Hge]; [lia|exfalso].
  assert (2 ^ bound <= 2 ^ snd pe) by (apply Z.pow_le_mono_r; lia). lia.
Qed.

(** C1: with the shortcut, [ModRing(4)(2) ** 1] leaves [__pow__] without a
    [return]: nul_pow is 1, the exponent does not exceed it, and the caller
    holds [None], where direct computation gives the element 2. *)
Theorem pow_small_exponent_returns_None :
  exists r x,
    ModRing_new 0 4 4 = Return r /\
    ModRing_call r 2 = Return x /\
    ModInt.decompose x = Return (1, 4, 1) /\
    ModInt.__pow__ 4 x 1 true = Return ModInt.None_ /\
    ModInt.__pow__ 4 x 1 false = Return (ModInt.Elt (mint r 2)).
Proof.
  eexists. eexists. split; [reflexivity|]. split; [reflexivity|].
  split; [reflexivity|]. split; reflexivity.
Qed.

(** C2: for every modulus n in [2, 999) and every value v in [2, n), the
    element minted from v raised to 100 with the shortcut equals, by the
    element's own equality, the same element raised to 100 without it, whose
    value is v^100 mod n. *)
Theorem sweep_shortcut_equals_direct (a fuel : nat) (n v : Z) :
  2 <= n < 999 -> 2 <= v < n -> n <= Z.of_nat fuel ->
  exists r x res1 res2,
    ModRing_new a fuel n = Return r /\
    ModRing_call r v = Return x /\
    ModInt.__pow__ fuel x 100 true = Return (ModInt.Elt res1) /\
    ModInt.__pow__ fuel x 100 false = Return (ModInt.Elt res2) /\
    ModInt.value res2 = v ^ 100 mod n /\
    ModInt.__eq__ res1 (ModInt.Elt res2) = Return true.
Proof.
  intros Hn Hv Hfuel.
  destruct (ring_new_spec a fuel n ltac:(lia) Hfuel) as (d & Hnew & Hfact).
  assert (Ew : v mod n = v) by (apply Z.mod_small; lia).
  assert (Hnp : fold_left (fun acc x => Z.max x acc) (nul_pows d (v mod n)) (-1) < 100).
  { apply (nul_pow_small d n); try assumption; lia. }
  destruct (pow_short_value a fuel n d v 100 ltac:(lia) Hfuel Hfact
              ltac:(lia) ltac:(lia) ltac:(lia) Hnp) as (c & Hshort & Ec).
  eexists. eexists. eexists. eexists.
  split; [exact Hnew|].
  split; [apply (init_ok a n d); lia|].
  split; [exact Hshort|].
  split; [apply (pow_direct a fuel n d); lia|].
  split.
  - cbn [mint ModInt.value obj ModRing.n]. rewrite Ew. reflexivity.
  - rewrite eq_same_ring. cbn [obj ModRing.n]. rewrite Ec.
    rewrite Z.eqb_refl. reflexivity.
Qed.

Lemma sweep_shortcut_equals_direct_witness :
  exists r x res1 res2,
    ModRing_new 0 12 12 = Return r /\
    ModRing_call r 6 = Return x /\
    ModInt.__pow__ 12 x 100 true = Return (ModInt.Elt res1) /\
    ModInt.__pow__ 12 x 100 false = Return (ModInt.Elt res2) /\
    ModInt.value res2 = 6 ^ 100 mod 12 /\
    ModInt.__eq__ res1 (ModInt.Elt res2) = Return true.
Proof. apply (sweep_shortcut_equals_direct 0 12 12 6); simpl; lia. Defined.

Lemma is_coprime_gcd (a : nat) (n : Z) (d : dict) (v : Z) :
  1 <= n -> factorization d n ->
  let r := {| addr := a; obj := ModRing.mk n d (dict_phi d) |} in
  ModInt.is_coprime (mint r v) = Return (Z.gcd (v mod n) n =? 1).
Proof.
  intros Hn Hfact r. unfold r. rewrite (is_coprime_ok a n d Hfact).
  pose proof (shared_nil_iff n d Hfact (v mod n)) as Hiff.
  destruct (Z.eqb_spec (Z.gcd (v mod n) n) 1) as [Hg|Hg].
  - apply Hiff in Hg. rewrite Hg. reflexivity.
  - destruct (shared d (v mod n)); [tauto | reflexivity].
Qed.

(* Every call of __pow__ on an element of a constructed ring ends in one of
   three ways. *)
Lemma pow_cases (a fuel : nat) (n : Z) (d : dict) (v exponent : Z) (short : bool) :
  1 <= n -> n <= Z.of_nat fuel -> factorization d n ->
  let r := {| addr := a; obj := ModRing.mk n d (dict_phi d) |} in
  (v mod n = 0 /\
   ModInt.__pow__ fuel (mint r v) exponent short
   = Raise (ValueError ModInt.zero_power)) \/
  (v mod n <> 0 /\ exponent < 0 /\ Z.gcd (v mod n) n <> 1 /\
   ModInt.__pow__ fuel (mint r v) exponent short
   = Raise (AssertionError ModInt.non_coprime)) \/
  (v mod n <> 0 /\ ~ (exponent < 0 /\ Z.gcd (v mod n) n <> 1) /\
   exists res, ModInt.__pow__ fuel (mint r v) exponent short = Return res).
Proof.
  intros Hn Hfuel Hfact r. unfold r.
  pose proof (shared_nil_iff n d Hfact (v mod n)) as Hiff.
  destruct (Z.eq_dec (v mod n) 0) as [H0|H0].
  { left. split; [assumption|]. apply pow_zero. assumption. }
  right.
  destruct (Z.eq_dec (v mod n) 1) as [H1|H1].
  { right. split; [assumption|]. split.
    - rewrite H1, Z.gcd_1_l. tauto.
    - eexists. apply pow_one; [assumption | assumption | right; assumption]. }
  destruct (Z.eq_dec exponent 0) as [He0|He0].
  { right. split; [assumption|]. split; [lia|].
    eexists. apply pow_one; [assumption | assumption | left; assumption]. }
  destruct (Z_lt_le_dec exponent 0) as [Hneg|Hpos].
  - destruct (shared d (v mod n)) as [|pe l] eqn:Hs.
    + right. split; [assumption|]. split; [tauto|].
      eexists. apply (pow_negative_unit a fuel n d); assumption.
    + left. split; [assumption|]. split; [assumption|]. split.
      * intros Hg. apply Hiff in Hg. discriminate.
      * apply (pow_negative_nonunit a fuel n d); try assumption.
        rewrite Hs. discriminate.
  - right. split; [assumption|]. split; [lia|].
    destruct short.
    + destruct (Z_lt_le_dec
                  (fold_left (fun acc x => Z.max x acc) (nul_pows d (v mod n)) (-1))
                  exponent) as [Hbig|Hsmall].
      * destruct (pow_short_value a fuel n d v exponent Hn Hfuel Hfact H0 H1
                    ltac:(lia) Hbig) as (c & Hrun & _).
        eexists. exact Hrun.
      * eexists. apply (pow_short_fallthrough a fuel n d); try assumption; [|lia].
        intros Hs. unfold nul_pows in Hsmall. rewrite Hs in Hsmall. cbn in Hsmall. lia.
    + eexists. apply (pow_direct a fuel n d); [assumption | assumption | assumption | lia].
Qed.

(** C6: on an element of a ring of modulus n >= 2, Power fails with
    InvalidOperationError exactly when the value is 0, whatever the exponent,
    or when the exponent is negative and the element is not a unit; in every
    other case it returns. *)
Theorem pow_invalid_operation_iff (a fuel : nat) (n v exponent : Z) (short : bool) :
  2 <= n -> n <= Z.of_nat fuel ->
  exists r x,
    ModRing_new a fuel n = Return r /\
    ModRing_call r v = Return x /\
    ModInt.is_coprime x = Return (Z.gcd (ModInt.value x) n =? 1) /\
    (ModInt.value x = 0 ->
       ModInt.__pow__ fuel x exponent short = Raise (ValueError ModInt.zero_power)) /\
    ((exists e, ModInt.__pow__ fuel x exponent short = Raise e /\
                InvalidOperationError e)
     <-> ModInt.value x = 0 \/
         (exponent < 0 /\ Z.gcd (ModInt.value x) n <> 1)) /\
    (~ (ModInt.value x = 0 \/ (exponent < 0 /\ Z.gcd (ModInt.value x) n <> 1)) ->
       exists res, ModInt.__pow__ fuel x exponent short = Return res).
Proof.
  intros Hn Hfuel.
  destruct (ring_new_spec a fuel n ltac:(lia) Hfuel) as (d & Hnew & Hfact).
  eexists. eexists.
  split; [exact Hnew|].
  split; [apply (init_ok a n d); lia|].
  split; [apply (is_coprime_gcd a n d); [lia | assumption]|].
  cbn [mint ModInt.value obj ModRing.n].
  destruct (pow_cases a fuel n d v exponent short ltac:(lia) Hfuel Hfact)
    as [(H0 & Hrun) | [(H0 & Hneg & Hg & Hrun) | (H0 & Hok & res & Hrun)]];
    cbn zeta in Hrun; rewrite Hrun.
  - split; [reflexivity|]. split; [split|].
    + intros _. left. assumption.
    + intros _. eexists. split; [reflexivity | left; reflexivity].
    + intros Hno. tauto.
  - split; [contradiction|]. split; [split|].
    + intros _. right. split; assumption.
    + intros _. eexists. split; [reflexivity | right; reflexivity].
    + intros Hno. tauto.
  - split; [contradiction|]. split; [split|].
    + intros (e & E & _). discriminate.
    + intros [?|?]; [contradiction | tauto].
    + intros _. exists res. reflexivity.
Qed.

Lemma pow_invalid_operation_iff_witness :
  exists r x,
    ModRing_new 0 12 12 = Return r /\
    ModRing_call r 4 = Return x /\
    ModInt.is_coprime x = Return (Z.gcd (ModInt.value x) 12 =? 1) /\
    (ModInt.value x = 0 ->
       ModInt.__pow__ 12 x (-1) true = Raise (ValueError ModInt.zero_power)) /\
    ((exists e, ModInt.__pow__ 12 x (-1) true = Raise e /\
                InvalidOperationError e)
     <-> ModInt.value x = 0 \/
         (-1 < 0 /\ Z.gcd (ModInt.value x) 12 <> 1)) /\
    (~ (ModInt.value x = 0 \/ (-1 < 0 /\ Z.gcd (ModInt.value x) 12 <> 1)) ->
       exists res, ModInt.__pow__ 12 x (-1) true = Return res).
Proof. apply (pow_invalid_operation_iff 0 12 12 4 (-1) true); simpl; lia. Defined.

(** C7: add, subtract, multiply, floor-divide and equality of two elements
    that reference different ring objects all fail with RingMismatchError,
    whatever the moduli of the two rings. *)
Theorem cross_ring_operations_fail (fuel : nat) (x y : ModInt.t) :
  addr (ModInt.ring x) <> addr (ModInt.ring y) ->
  exists e,
    RingMismatchError e /\
    ModInt.__add__ x (ModInt.Elt y) = Raise e /\
    ModInt.__sub__ x (ModInt.Elt y) = Raise e /\
    ModInt.__mul__ x (ModInt.Elt y) = Raise e /\
    ModInt.__floordiv__ fuel x (ModInt.Elt y) = Raise e /\
    ModInt.__eq__ x (ModInt.Elt y) = Raise e.
Proof.
  intros Hne.
  assert (Hring : ring_is (ModInt.ring y) (ModInt.ring x) = false).
  { unfold ring_is. apply Nat.eqb_neq. congruence. }
  exists (AssertionError ModInt.different_rings). split; [reflexivity|].
  unfold ModInt.__add__, ModInt.__sub__, ModInt.__mul__, ModInt.__floordiv__,
    ModInt.__eq__.
  cbn [ModInt.assert_type bind]. rewrite Hring. cbn [assert_ bind].
  repeat split.
Qed.

Lemma cross_ring_operations_fail_witness :
  exists e,
    RingMismatchError e /\
    ModInt.__add__ (mint {| addr := 0; obj := ModRing.mk 12 [(2, 2); (3, 1)] 4 |} 1)
      (ModInt.Elt (mint {| addr := 1; obj := ModRing.mk 12 [(2, 2); (3, 1)] 4 |} 1))
    = Raise e /\
    ModInt.__sub__ (mint {| addr := 0; obj := ModRing.mk 12 [(2, 2); (3, 1)] 4 |} 1)
      (ModInt.Elt (mint {| addr := 1; obj := ModRing.mk 12 [(2, 2); (3, 1)] 4 |} 1))
    = Raise e /\
    ModInt.__mul__ (mint {| addr := 0; obj := ModRing.mk 12 [(2, 2); (3, 1)] 4 |} 1)
      (ModInt.Elt (mint {| addr := 1; obj := ModRing.mk 12 [(2, 2); (3, 1)] 4 |} 1))
    = Raise e /\
    ModInt.__floordiv__ 12
      (mint {| addr := 0; obj := ModRing.mk 12 [(2, 2); (3, 1)] 4 |} 1)
      (ModInt.Elt (mint {| addr := 1; obj := ModRing.mk 12 [(2, 2); (3, 1)] 4 |} 1))
    = Raise e /\
    ModInt.__eq__ (mint {| addr := 0; obj := ModRing.mk 12 [(2, 2); (3, 1)] 4 |} 1)
      (ModInt.Elt (mint {| addr := 1; obj := ModRing.mk 12 [(2, 2); (3, 1)] 4 |} 1))
    = Raise e.
Proof.
  apply (cross_ring_operations_fail 12
           (mint {| addr := 0; obj := ModRing.mk 12 [(2, 2); (3, 1)] 4 |} 1)
           (mint {| addr := 1; obj := ModRing.mk 12 [(2, 2); (3, 1)] 4 |} 1)).
  simpl. lia.
Defined.

(** C10: comparing an element with an operand that is not an element
    raises an error: the type assertion fails before the rings or the values
    are looked at. *)
Theorem eq_with_non_element_raises (x : ModInt.t) (other : ModInt.operand) :
  is_ModInt other = false ->
  ModInt.__eq__ x other = Raise (AssertionError None) /\
  forall b, ModInt.__eq__ x other <> Return b.
Proof.
  intros Hother. destruct other as [y|z|]; [discriminate| |];
    (split; [reflexivity | intros b; discriminate]).
Qed.

Lemma eq_with_non_element_raises_witness :
  ModInt.__eq__ (mint {| addr := 0; obj := ModRing.mk 12 [(2, 2); (3, 1)] 4 |} 7)
    (ModInt.Int 7)
  = Raise (AssertionError None) /\
  forall b,
    ModInt.__eq__ (mint {| addr := 0; obj := ModRing.mk 12 [(2, 2); (3, 1)] 4 |} 7)
      (ModInt.Int 7)
    <> Return b.
Proof.
  apply (eq_with_non_element_raises
           (mint {| addr := 0; obj := ModRing.mk 12 [(2, 2); (3, 1)] 4 |} 7)
           (ModInt.Int 7)).
  reflexivity.
Defined.

Lemma mod_minus_one (phi : Z) : 0 < phi -> (-1) mod phi = phi - 1.
Proof.
  intros H. symmetry. apply (Z.mod_unique _ _ (-1)); [left; lia | ring].
Qed.

(** C8: in a ring of modulus n >= 2, a unit a satisfies a * a^(-1) == Mint(1)
    and a^(phi(n)) == Mint(1); and Ring(12).Mint(7).Power(-1) == Mint(7). *)
Theorem unit_inverse_and_euler (a fuel : nat) (n v : Z) :
  2 <= n -> n <= Z.of_nat fuel ->
  Z.gcd (v mod n) n = 1 -> v mod n <> 0 ->
  (exists r x one inv prod pw,
     ModRing_new a fuel n = Return r /\
     ModRing_call r v = Return x /\
     ModRing_call r 1 = Return one /\
     ModInt.__pow__ fuel x (-1) true = Return (ModInt.Elt inv) /\
     ModInt.__mul__ x (ModInt.Elt inv) = Return prod /\
     ModInt.__eq__ prod (ModInt.Elt one) = Return true /\
     ModInt.__pow__ fuel x (ModRing.phi (obj r)) true = Return (ModInt.Elt pw) /\
     ModInt.__eq__ pw (ModInt.Elt one) = Return true) /\
  (exists r12 seven inv,
     ModRing_new 0 12 12 = Return r12 /\
     ModRing_call r12 7 = Return seven /\
     ModInt.__pow__ 12 seven (-1) true = Return (ModInt.Elt inv) /\
     ModInt.__eq__ inv (ModInt.Elt seven) = Return true).
Proof.
  intros Hn Hfuel Hg H0. split.
  2:{ do 3 eexists. repeat split; reflexivity. }
  destruct (ring_new_spec a fuel n ltac:(lia) Hfuel) as (d & Hnew & Hfact).
  assert (Hn1 : 1 <= n) by lia.
  pose proof (proj2 (shared_nil_iff n d Hfact (v mod n)) Hg) as Hs.
  pose proof (NatBridge.totientZ_pos n ltac:(lia)) as Hphi.
  pose proof (phi_totient n d Hfact) as Ephi.
  pose proof (w_bounds n Hn1 v) as Hw.
  assert (E1 : 1 mod n = 1) by (apply Z.mod_small; lia).
  destruct (Z.eq_dec (v mod n) 1) as [H1|H1].
  - exists {| addr := a; obj := ModRing.mk n d (dict_phi d) |}.
    eexists. eexists. eexists. eexists. eexists.
    split; [exact Hnew|].
    split; [apply (init_ok a n d Hn1)|].
    split; [apply (init_ok a n d Hn1)|].
    split; [apply (pow_one a fuel n d Hn1); [assumption | right; assumption]|].
    split; [apply (mul_same_ring a n d _ _ Hn1)|].
    split.
    { rewrite eq_same_ring. cbn [obj ModRing.n]. rewrite H1, E1, Z.mul_1_l, E1.
      reflexivity. }
    split; [apply (pow_one a fuel n d Hn1); [assumption | right; assumption]|].
    rewrite eq_same_ring. cbn [obj ModRing.n]. rewrite Z.eqb_refl. reflexivity.
  - exists {| addr := a; obj := ModRing.mk n d (dict_phi d) |}.
    eexists. eexists. eexists. eexists. eexists.
    split; [exact Hnew|].
    split; [apply (init_ok a n d Hn1)|].
    split; [apply (init_ok a n d Hn1)|].
    split; [apply (pow_negative_unit a fuel n d Hn1 Hfact); (assumption || lia)|].
    split; [apply (mul_same_ring a n d _ _ Hn1)|].
    split.
    { rewrite eq_same_ring. cbn [obj ModRing.n].
      rewrite (mod_minus_one _ Hphi), E1.
      rewrite Z.mul_mod_idemp_r by lia.
      rewrite <- (Z.pow_1_r (v mod n)) at 1.
      rewrite <- Z.pow_add_r by lia.
      replace (1 + (NatBridge.totientZ n - 1)) with (NatBridge.totientZ n) by lia.
      rewrite (NatBridge.Euler_Z (v mod n) n) by (assumption || lia).
      rewrite E1. reflexivity. }
    cbn [obj ModRing.phi].
    split; [apply (pow_short_unit a fuel n d Hn1 Hfact); (assumption || lia)|].
    rewrite eq_same_ring. cbn [obj ModRing.n].
    rewrite Ephi, Z.mod_same by lia. rewrite Z.pow_0_r, Z.eqb_refl. reflexivity.
Qed.

Lemma unit_inverse_and_euler_witness :
  (exists r x one inv prod pw,
     ModRing_new 0 35 35 = Return r /\
     ModRing_call r 12 = Return x /\
     ModRing_call r 1 = Return one /\
     ModInt.__pow__ 35 x (-1) true = Return (ModInt.Elt inv) /\
     ModInt.__mul__ x (ModInt.Elt inv) = Return prod /\
     ModInt.__eq__ prod (ModInt.Elt one) = Return true /\
     ModInt.__pow__ 35 x (ModRing.phi (obj r)) true = Return (ModInt.Elt pw) /\
     ModInt.__eq__ pw (ModInt.Elt one) = Return true) /\
  (exists r12 seven inv,
     ModRing_new 0 12 12 = Return r12 /\
     ModRing_call r12 7 = Return seven /\
     ModInt.__pow__ 12 seven (-1) true = Return (ModInt.Elt inv) /\
     ModInt.__eq__ inv (ModInt.Elt seven) = Return true).
Proof.
  apply (unit_inverse_and_euler 0 35 35 12); [lia | simpl; lia | reflexivity |].
  vm_compute. discriminate.
Defined.

Lemma filter_none {A : Type} (f : A -> bool) (l : list A) :
  (forall x, In x l -> f x = false) -> filter f l = [].
Proof.
  induction l as [|x l IH]; intros H; cbn [filter]; [reflexivity|].
  rewrite (H x (or_introl eq_refl)). apply IH. intros y Hy. apply H. right. assumption.
Qed.

Lemma ring_of_one (fuel : nat) : ModRing.__init__ fuel 1 = Return (ModRing.mk 1 [] 1).
Proof. destruct fuel; reflexivity. Qed.

(* When every prime factor of the modulus divides the value, nothing of the
   modulus is left for the sub-ring. *)
Lemma all_shared (n : Z) (d : dict) (v : Z) :
  2 <= n -> factorization d n -> v mod n <> 0 ->
  (forall p, In p (keys d) -> (p | v mod n)) ->
  shared d (v mod n) <> [] /\ v mod n <> 1 /\
  dict_prod (shared d (v mod n)) = n /\
  n / dict_prod (shared d (v mod n)) = 1.
Proof.
  intros Hn Hfact Hw Hall.
  pose proof (factors_prime n d Hfact) as HF.
  assert (Hun : unshared d (v mod n) = []).
  { unfold unshared. apply filter_none. intros pe Hin.
    rewrite Forall_forall in HF. destruct (HF pe Hin) as [Hp _].
    assert (Hd : (fst pe | v mod n)) by (apply Hall; apply in_map; assumption).
    apply (divides_value_spec (v mod n) pe Hp) in Hd. rewrite Hd. reflexivity. }
  destruct (k_times_m n d Hfact v) as (Enkm & Hk & Hm & Em).
  rewrite Hun in Em. cbn in Em.
  assert (Hd : d <> []).
  { intros ->. destruct Hfact as (_ & _ & E). cbn in E. lia. }
  destruct d as [|pe d']; [congruence|].
  assert (Hin : In pe (pe :: d')) by (left; reflexivity).
  rewrite Forall_forall in HF. destruct (HF pe Hin) as [Hp _].
  pose proof (Z.prime_ge_2 _ Hp) as Hp2.
  assert (Hdiv : (fst pe | v mod n)) by (apply Hall; apply in_map; assumption).
  split; [|split; [|split]].
  - intros Hnil.
    assert (Hs : In pe (shared (pe :: d') (v mod n))).
    { unfold shared. apply filter_In. split; [assumption|].
      apply divides_value_spec; assumption. }
    rewrite Hnil in Hs. destruct Hs.
  - intros E1. rewrite E1 in Hdiv. apply Z.divide_1_r_nonneg in Hdiv; lia.
  - rewrite Em in Enkm. lia.
  - exact Em.
Qed.

(** C9: a ring of modulus 1 is constructed with an empty prime-factor
    mapping and totient 1; when every prime factor of the modulus divides
    the value of an element, decompose returns m = 1, reducing the exponent
    modulo phi(1) gives 0 without dividing by zero, and on the fast path
    Power returns Mint(0). *)
Theorem modulus_one_fast_path (a fuel : nat) (n v exponent : Z) :
  2 <= n -> n <= Z.of_nat fuel ->
  exists r x,
    ModRing_new a fuel n = Return r /\
    ModRing_call r v = Return x /\
    (forall fuel1, ModRing.__init__ fuel1 1 = Return (ModRing.mk 1 [] 1)) /\
    (ModInt.value x <> 0 ->
     (forall p, In p (keys (ModRing.prime_factors (obj r))) -> (p | ModInt.value x)) ->
     exists nul_pow k,
       ModInt.decompose x = Return (nul_pow, k, 1) /\
       pymod exponent (ModRing.phi (ModRing.mk 1 [] 1)) = Return 0 /\
       (nul_pow < exponent ->
        ModInt.__pow__ fuel x exponent true = Return (ModInt.Elt (mint r 0)))).
Proof.
  intros Hn Hfuel.
  destruct (ring_new_spec a fuel n ltac:(lia) Hfuel) as (d & Hnew & Hfact).
  assert (Hn1 : 1 <= n) by lia.
  eexists. eexists.
  split; [exact Hnew|].
  split; [apply (init_ok a n d Hn1)|].
  split; [exact ring_of_one|].
  cbn [mint ModInt.value obj ModRing.n ModRing.prime_factors ModRing.phi].
  intros H0 Hall.
  destruct (all_shared n d v Hn Hfact H0 Hall) as (Hs & H1 & Ek & Em).
  do 2 eexists.
  split.
  { rewrite (decompose_ok a n d Hfact). rewrite Em. reflexivity. }
  split.
  { rewrite pymod_ok by lia. rewrite Z.mod_1_r. reflexivity. }
  intros Hbig.
  rewrite (pow_short_fast a fuel n d Hn1 Hfact v exponent Hfuel H0 H1 Hs Hbig).
  rewrite Em, NatBridge.totientZ_1, Z.mod_1_r, Z.pow_0_r, Z.pow_1_r, Z.mul_1_r, Ek.
  unfold mint. cbn [obj ModRing.n].
  rewrite Z.mod_same, Z.mod_0_l by lia. reflexivity.
Qed.

Lemma modulus_one_fast_path_witness :
  exists r x,
    ModRing_new 0 4 4 = Return r /\
    ModRing_call r 2 = Return x /\
    (forall fuel1, ModRing.__init__ fuel1 1 = Return (ModRing.mk 1 [] 1)) /\
    (ModInt.value x <> 0 ->
     (forall p, In p (keys (ModRing.prime_factors (obj r))) -> (p | ModInt.value x)) ->
     exists nul_pow k,
       ModInt.decompose x = Return (nul_pow, k, 1) /\
       pymod 2 (ModRing.phi (ModRing.mk 1 [] 1)) = Return 0 /\
       (nul_pow < 2 ->
        ModInt.__pow__ 4 x 2 true = Return (ModInt.Elt (mint r 0)))).
Proof. apply (modulus_one_fast_path 0 4 4 2 2); simpl; lia. Defined.

(** * Further properties of the code *)

(** ** The operators on elements of one ring *)

Section SameRing.

Variables (a : nat) (n : Z) (d : dict).
Hypothesis n_ge_1 : 1 <= n.

Local Abbreviation r := {| addr := a; obj := ModRing.mk n d (dict_phi d) |}.

Lemma call_ok (c : Z) : ModRing_call r c = Return (mint r c).
Proof. apply (init_ok a n d n_ge_1). Qed.

Lemma add_same_ring (c1 c2 : Z) :
  ModInt.__add__ (mint r c1) (ModInt.Elt (mint r c2))
  = Return (mint r (c1 mod n + c2 mod n)).
Proof.
  unfold ModInt.__add__.
  cbn [ModInt.assert_type bind mint ModInt.ring ModInt.value].
  unfold ring_is. rewrite Nat.eqb_refl. cbn [assert_ bind].
  apply (init_ok a n d n_ge_1).
Qed.

Lemma sub_same_ring (c1 c2 : Z) :
  ModInt.__sub__ (mint r c1) (ModInt.Elt (mint r c2))
  = Return (mint r (c1 mod n - c2 mod n)).
Proof.
  unfold ModInt.__sub__.
  cbn [ModInt.assert_type bind mint ModInt.ring ModInt.value].
  unfold ring_is. rewrite Nat.eqb_refl. cbn [assert_ bind].
  apply (init_ok a n d n_ge_1).
Qed.

Lemma neg_same_ring (c : Z) :
  ModInt.__neg__ (mint r c) = Return (mint r (n - c mod n)).
Proof.
  unfold ModInt.__neg__. cbn [mint ModInt.ring ModInt.value ModInt.n obj ModRing.n].
  apply (init_ok a n d n_ge_1).
Qed.

Lemma mint_eq (c1 c2 : Z) : c1 mod n = c2 mod n -> mint r c1 = mint r c2.
Proof. intros E. unfold mint. cbn [obj ModRing.n]. rewrite E. reflexivity. Qed.

End SameRing.

(** X1: every result of add, subtract, multiply and negate is the element
    minted by the same ring from the integer result: its value is reduced
    into [0, n), its modulus is the ring's, and it references the ring of
    the left operand. *)
Theorem operators_mint_in_same_ring (a fuel : nat) (n u v : Z) :
  2 <= n -> n <= Z.of_nat fuel ->
  exists r x y,
    ModRing_new a fuel n = Return r /\
    ModRing_call r u = Return x /\
    ModRing_call r v = Return y /\
    ModInt.__add__ x (ModInt.Elt y)
      = ModRing_call r (ModInt.value x + ModInt.value y) /\
    ModInt.__sub__ x (ModInt.Elt y)
      = ModRing_call r (ModInt.value x - ModInt.value y) /\
    ModInt.__mul__ x (ModInt.Elt y)
      = ModRing_call r (ModInt.value x * ModInt.value y) /\
    ModInt.__neg__ x = ModRing_call r (n - ModInt.value x) /\
    forall c z, ModRing_call r c = Return z ->
      0 <= ModInt.value z < n /\ ModInt.n z = n /\ ModInt.ring z = r.
Proof.
  intros Hn Hfuel.
  destruct (ring_new_spec a fuel n ltac:(lia) Hfuel) as (d & Hnew & Hfact).
  assert (Hn1 : 1 <= n) by lia.
  eexists. exists (mint {| addr := a; obj := ModRing.mk n d (dict_phi d) |} u).
  exists (mint {| addr := a; obj := ModRing.mk n d (dict_phi d) |} v).
  split; [exact Hnew|].
  split; [apply call_ok; assumption|].
  split; [apply call_ok; assumption|].
  split; [rewrite (add_same_ring _ _ _ Hn1); symmetry; apply call_ok; assumption|].
  split; [rewrite (sub_same_ring _ _ _ Hn1); symmetry; apply call_ok; assumption|].
  split; [rewrite (mul_same_ring a n d _ _ Hn1); symmetry; apply call_ok; assumption|].
  split; [rewrite (neg_same_ring _ _ _ Hn1); symmetry; apply call_ok; assumption|].
  intros c z Hz. rewrite (call_ok _ _ _ Hn1) in Hz. injection Hz as <-.
  cbn [mint ModInt.value ModInt.n ModInt.ring obj ModRing.n].
  split; [apply Z.mod_pos_bound; lia | split; reflexivity].
Qed.

Lemma operators_mint_in_same_ring_witness :
  exists r x y,
    ModRing_new 0 12 12 = Return r /\
    ModRing_call r 6 = Return x /\
    ModRing_call r 7 = Return y /\
    ModInt.__add__ x (ModInt.Elt y)
      = ModRing_call r (ModInt.value x + ModInt.value y) /\
    ModInt.__sub__ x (ModInt.Elt y)
      = ModRing_call r (ModInt.value x - ModInt.value y) /\
    ModInt.__mul__ x (ModInt.Elt y)
      = ModRing_call r (ModInt.value x * ModInt.value y) /\
    ModInt.__neg__ x = ModRing_call r (12 - ModInt.value x) /\
    forall c z, ModRing_call r c = Return z ->
      0 <= ModInt.value z < 12 /\ ModInt.n z = 12 /\ ModInt.ring z = r.
Proof. apply (operators_mint_in_same_ring 0 12 12 6 7); simpl; lia. Defined.

Section Normalised.

Variables (a : nat) (n : Z) (d : dict).
Hypothesis n_ge_1 : 1 <= n.

Local Abbreviation r := {| addr := a; obj := ModRing.mk n d (dict_phi d) |}.

(* The operators on minted elements, with the reductions of the operands
   absorbed by the reduction of the result. *)
Lemma add_mint (c1 c2 : Z) :
  ModInt.__add__ (mint r c1) (ModInt.Elt (mint r c2)) = Return (mint r (c1 + c2)).
Proof.
  rewrite (add_same_ring a n d n_ge_1). f_equal. apply mint_eq.
  symmetry. apply Z.add_mod. lia.
Qed.

Lemma sub_mint (c1 c2 : Z) :
  ModInt.__sub__ (mint r c1) (ModInt.Elt (mint r c2)) = Return (mint r (c1 - c2)).
Proof.
  rewrite (sub_same_ring a n d n_ge_1). f_equal. apply mint_eq.
  symmetry. apply Zminus_mod.
Qed.

Lemma mul_mint (c1 c2 : Z) :
  ModInt.__mul__ (mint r c1) (ModInt.Elt (mint r c2)) = Return (mint r (c1 * c2)).
Proof.
  rewrite (mul_same_ring a n d _ _ n_ge_1). f_equal. apply mint_eq.
  symmetry. apply Z.mul_mod. lia.
Qed.

Lemma neg_mint (c : Z) :
  ModInt.__neg__ (mint r c) = Return (mint r (- c)).
Proof.
  rewrite (neg_same_ring a n d n_ge_1). f_equal. apply mint_eq.
  rewrite Zminus_mod_idemp_r.
  replace (n - c) with (- c + 1 * n) by ring. apply Z_mod_plus_full.
Qed.

End Normalised.

(* Run a straight-line program on elements of one ring. *)
Ltac run_program Hn :=
  repeat first
    [ rewrite (call_ok _ _ _ Hn)
    | rewrite (add_mint _ _ _ Hn)
    | rewrite (sub_mint _ _ _ Hn)
    | rewrite (mul_mint _ _ _ Hn)
    | rewrite (neg_mint _ _ _ Hn)
    | rewrite eq_same_ring
    | progress cbn [bind obj ModRing.n] ].

(* Two integers that are equal as polynomials mint equal elements. *)
Ltac same_value :=
  f_equal; apply Z.eqb_eq; first [reflexivity | f_equal; ring].

(** X2: minting commutes with the operators: ring(u) + ring(v) == ring(u + v),
    and likewise for subtraction, multiplication and negation, for all
    integers u and v, negative ones included. *)
Theorem mint_is_homomorphism (a fuel : nat) (n : Z) :
  2 <= n -> n <= Z.of_nat fuel ->
  exists r,
    ModRing_new a fuel n = Return r /\
    forall u v,
      (x <- ModRing_call r u ;; y <- ModRing_call r v ;;
       s <- ModInt.__add__ x (ModInt.Elt y) ;; t <- ModRing_call r (u + v) ;;
       ModInt.__eq__ s (ModInt.Elt t)) = Return true /\
      (x <- ModRing_call r u ;; y <- ModRing_call r v ;;
       s <- ModInt.__sub__ x (ModInt.Elt y) ;; t <- ModRing_call r (u - v) ;;
       ModInt.__eq__ s (ModInt.Elt t)) = Return true /\
      (x <- ModRing_call r u ;; y <- ModRing_call r v ;;
       s <- ModInt.__mul__ x (ModInt.Elt y) ;; t <- ModRing_call r (u * v) ;;
       ModInt.__eq__ s (ModInt.Elt t)) = Return true /\
      (x <- ModRing_call r u ;;
       s <- ModInt.__neg__ x ;; t <- ModRing_call r (- u) ;;
       ModInt.__eq__ s (ModInt.Elt t)) = Return true.
Proof.
  intros Hn Hfuel.
  destruct (ring_new_spec a fuel n ltac:(lia) Hfuel) as (d & Hnew & Hfact).
  assert (Hn1 : 1 <= n) by lia.
  eexists. split; [exact Hnew|]. intros u v.
  repeat split; run_program Hn1; same_value.
Qed.

Lemma mint_is_homomorphism_witness :
  exists r,
    ModRing_new 0 12 12 = Return r /\
    forall u v,
      (x <- ModRing_call r u ;; y <- ModRing_call r v ;;
       s <- ModInt.__add__ x (ModInt.Elt y) ;; t <- ModRing_call r (u + v) ;;
       ModInt.__eq__ s (ModInt.Elt t)) = Return true /\
      (x <- ModRing_call r u ;; y <- ModRing_call r v ;;
       s <- ModInt.__sub__ x (ModInt.Elt y) ;; t <- ModRing_call r (u - v) ;;
       ModInt.__eq__ s (ModInt.Elt t)) = Return true /\
      (x <- ModRing_call r u ;; y <- ModRing_call r v ;;
       s <- ModInt.__mul__ x (ModInt.Elt y) ;; t <- ModRing_call r (u * v) ;;
       ModInt.__eq__ s (ModInt.Elt t)) = Return true /\
      (x <- ModRing_call r u ;;
       s <- ModInt.__neg__ x ;; t <- ModRing_call r (- u) ;;
       ModInt.__eq__ s (ModInt.Elt t)) = Return true.
Proof. apply (mint_is_homomorphism 0 12 12); simpl; lia. Defined.

(** X3: addition of elements is commutative and associative, Mint(0) is
    neutral, and a + (-a) == Mint(0). *)
Theorem addition_laws (a fuel : nat) (n : Z) :
  2 <= n -> n <= Z.of_nat fuel ->
  exists r,
    ModRing_new a fuel n = Return r /\
    forall u v w,
      (x <- ModRing_call r u ;; y <- ModRing_call r v ;;
       xy <- ModInt.__add__ x (ModInt.Elt y) ;;
       yx <- ModInt.__add__ y (ModInt.Elt x) ;;
       ModInt.__eq__ xy (ModInt.Elt yx)) = Return true /\
      (x <- ModRing_call r u ;; y <- ModRing_call r v ;; z <- ModRing_call r w ;;
       xy <- ModInt.__add__ x (ModInt.Elt y) ;;
       xy_z <- ModInt.__add__ xy (ModInt.Elt z) ;;
       yz <- ModInt.__add__ y (ModInt.Elt z) ;;
       x_yz <- ModInt.__add__ x (ModInt.Elt yz) ;;
       ModInt.__eq__ xy_z (ModInt.Elt x_yz)) = Return true /\
      (x <- ModRing_call r u ;; zero <- ModRing_call r 0 ;;
       s <- ModInt.__add__ x (ModInt.Elt zero) ;;
       ModInt.__eq__ s (ModInt.Elt x)) = Return true /\
      (x <- ModRing_call r u ;; zero <- ModRing_call r 0 ;;
       m <- ModInt.__neg__ x ;;
       s <- ModInt.__add__ x (ModInt.Elt m) ;;
       ModInt.__eq__ s (ModInt.Elt zero)) = Return true.
Proof.
  intros Hn Hfuel.
  destruct (ring_new_spec a fuel n ltac:(lia) Hfuel) as (d & Hnew & Hfact).
  assert (Hn1 : 1 <= n) by lia.
  eexists. split; [exact Hnew|]. intros u v w.
  repeat split; run_program Hn1; same_value.
Qed.

Lemma addition_laws_witness :
  exists r,
    ModRing_new 0 12 12 = Return r /\
    forall u v w,
      (x <- ModRing_call r u ;; y <- ModRing_call r v ;;
       xy <- ModInt.__add__ x (ModInt.Elt y) ;;
       yx <- ModInt.__add__ y (ModInt.Elt x) ;;
       ModInt.__eq__ xy (ModInt.Elt yx)) = Return true /\
      (x <- ModRing_call r u ;; y <- ModRing_call r v ;; z <- ModRing_call r w ;;
       xy <- ModInt.__add__ x (ModInt.Elt y) ;;
       xy_z <- ModInt.__add__ xy (ModInt.Elt z) ;;
       yz <- ModInt.__add__ y (ModInt.Elt z) ;;
       x_yz <- ModInt.__add__ x (ModInt.Elt yz) ;;
       ModInt.__eq__ xy_z (ModInt.Elt x_yz)) = Return true /\
      (x <- ModRing_call r u ;; zero <- ModRing_call r 0 ;;
       s <- ModInt.__add__ x (ModInt.Elt zero) ;;
       ModInt.__eq__ s (ModInt.Elt x)) = Return true /\
      (x <- ModRing_call r u ;; zero <- ModRing_call r 0 ;;
       m <- ModInt.__neg__ x ;;
       s <- ModInt.__add__ x (ModInt.Elt m) ;;
       ModInt.__eq__ s (ModInt.Elt zero)) = Return true.
Proof. apply (addition_laws 0 12 12); simpl; lia. Defined.

(** X4: multiplication of elements is commutative and associative, Mint(1)
    is neutral, and multiplication distributes over addition. *)
Theorem multiplication_laws (a fuel : nat) (n : Z) :
  2 <= n -> n <= Z.of_nat fuel ->
  exists r,
    ModRing_new a fuel n = Return r /\
    forall u v w,
      (x <- ModRing_call r u ;; y <- ModRing_call r v ;;
       xy <- ModInt.__mul__ x (ModInt.Elt y) ;;
       yx <- ModInt.__mul__ y (ModInt.Elt x) ;;
       ModInt.__eq__ xy (ModInt.Elt yx)) = Return true /\
      (x <- ModRing_call r u ;; y <- ModRing_call r v ;; z <- ModRing_call r w ;;
       xy <- ModInt.__mul__ x (ModInt.Elt y) ;;
       xy_z <- ModInt.__mul__ xy (ModInt.Elt z) ;;
       yz <- ModInt.__mul__ y (ModInt.Elt z) ;;
       x_yz <- ModInt.__mul__ x (ModInt.Elt yz) ;;
       ModInt.__eq__ xy_z (ModInt.Elt x_yz)) = Return true /\
      (x <- ModRing_call r u ;; one <- ModRing_call r 1 ;;
       s <- ModInt.__mul__ x (ModInt.Elt one) ;;
       ModInt.__eq__ s (ModInt.Elt x)) = Return true /\
      (x <- ModRing_call r u ;; y <- ModRing_call r v ;; z <- ModRing_call r w ;;
       yz <- ModInt.__add__ y (ModInt.Elt z) ;;
       l <- ModInt.__mul__ x (ModInt.Elt yz) ;;
       xy <- ModInt.__mul__ x (ModInt.Elt y) ;;
       xz <- ModInt.__mul__ x (ModInt.Elt z) ;;
       s <- ModInt.__add__ xy (ModInt.Elt xz) ;;
       ModInt.__eq__ l (ModInt.Elt s)) = Return true.
Proof.
  intros Hn Hfuel.
  destruct (ring_new_spec a fuel n ltac:(lia) Hfuel) as (d & Hnew & Hfact).
  assert (Hn1 : 1 <= n) by lia.
  eexists. split; [exact Hnew|]. intros u v w.
  repeat split; run_program Hn1; same_value.
Qed.

Lemma multiplication_laws_witness :
  exists r,
    ModRing_new 0 12 12 = Return r /\
    forall u v w,
      (x <- ModRing_call r u ;; y <- ModRing_call r v ;;
       xy <- ModInt.__mul__ x (ModInt.Elt y) ;;
       yx <- ModInt.__mul__ y (ModInt.Elt x) ;;
       ModInt.__eq__ xy (ModInt.Elt yx)) = Return true /\
      (x <- ModRing_call r u ;; y <- ModRing_call r v ;; z <- ModRing_call r w ;;
       xy <- ModInt.__mul__ x (ModInt.Elt y) ;;
       xy_z <- ModInt.__mul__ xy (ModInt.Elt z) ;;
       yz <- ModInt.__mul__ y (ModInt.Elt z) ;;
       x_yz <- ModInt.__mul__ x (ModInt.Elt yz) ;;
       ModInt.__eq__ xy_z (ModInt.Elt x_yz)) = Return true /\
      (x <- ModRing_call r u ;; one <- ModRing_call r 1 ;;
       s <- ModInt.__mul__ x (ModInt.Elt one) ;;
       ModInt.__eq__ s (ModInt.Elt x)) = Return true /\
      (x <- ModRing_call r u ;; y <- ModRing_call r v ;; z <- ModRing_call r w ;;
       yz <- ModInt.__add__ y (ModInt.Elt z) ;;
       l <- ModInt.__mul__ x (ModInt.Elt yz) ;;
       xy <- ModInt.__mul__ x (ModInt.Elt y) ;;
       xz <- ModInt.__mul__ x (ModInt.Elt z) ;;
       s <- ModInt.__add__ xy (ModInt.Elt xz) ;;
       ModInt.__eq__ l (ModInt.Elt s)) = Return true.
Proof. apply (multiplication_laws 0 12 12); simpl; lia. Defined.

(** X5: subtraction is addition of the negation: a - b == a + (-b). *)
Theorem subtraction_is_adding_negation (a fuel : nat) (n : Z) :
  2 <= n -> n <= Z.of_nat fuel ->
  exists r,
    ModRing_new a fuel n = Return r /\
    forall u v,
      (x <- ModRing_call r u ;; y <- ModRing_call r v ;;
       l <- ModInt.__sub__ x (ModInt.Elt y) ;;
       m <- ModInt.__neg__ y ;;
       s <- ModInt.__add__ x (ModInt.Elt m) ;;
       ModInt.__eq__ l (ModInt.Elt s)) = Return true.
Proof.
  intros Hn Hfuel.
  destruct (ring_new_spec a fuel n ltac:(lia) Hfuel) as (d & Hnew & Hfact).
  assert (Hn1 : 1 <= n) by lia.
  eexists. split; [exact Hnew|]. intros u v.
  run_program Hn1; same_value.
Qed.

Lemma subtraction_is_adding_negation_witness :
  exists r,
    ModRing_new 0 12 12 = Return r /\
    forall u v,
      (x <- ModRing_call r u ;; y <- ModRing_call r v ;;
       l <- ModInt.__sub__ x (ModInt.Elt y) ;;
       m <- ModInt.__neg__ y ;;
       s <- ModInt.__add__ x (ModInt.Elt m) ;;
       ModInt.__eq__ l (ModInt.Elt s)) = Return true.
Proof. apply (subtraction_is_adding_negation 0 12 12); simpl; lia. Defined.

(** ** More on __pow__ and __floordiv__ *)

(* The power of a unit, for any integer exponent and in either mode. *)
Lemma unit_pow (a fuel : nat) (n : Z) (d : dict) (v e : Z) (short : bool) :
  2 <= n -> factorization d n -> Z.gcd (v mod n) n = 1 ->
  exists c,
    ModInt.__pow__ fuel (mint {| addr := a; obj := ModRing.mk n d (dict_phi d) |} v)
      e short
    = Return (ModInt.Elt (mint {| addr := a; obj := ModRing.mk n d (dict_phi d) |} c))
    /\ c mod n = (v mod n) ^ (e mod NatBridge.totientZ n) mod n.
Proof.
  intros Hn Hfact Hg. assert (Hn1 : 1 <= n) by lia.
  pose proof (proj2 (shared_nil_iff n d Hfact (v mod n)) Hg) as Hs.
  pose proof (NatBridge.totientZ_pos n ltac:(lia)) as Hphi.
  pose proof (Z.mod_pos_bound e _ Hphi) as He.
  assert (H0 : v mod n <> 0).
  { intros E. rewrite E, Z.gcd_0_l in Hg. lia. }
  destruct (Z.eq_dec (v mod n) 1) as [H1|H1].
  { exists 1. split; [apply pow_one; [assumption | assumption | right; assumption]|].
    rewrite H1, Z.pow_1_l by lia. reflexivity. }
  destruct (Z.eq_dec e 0) as [->|He0].
  { exists 1. split; [apply pow_one; [assumption | assumption | left; reflexivity]|].
    rewrite Z.mod_0_l, Z.pow_0_r by lia. reflexivity. }
  destruct (Z_lt_le_dec e 0) as [Hneg|Hpos].
  { eexists. split; [apply pow_negative_unit; assumption | reflexivity]. }
  destruct short.
  - eexists. split; [apply pow_short_unit; (assumption || lia) | reflexivity].
  - eexists. split; [apply pow_direct; (assumption || lia)|].
    symmetry. apply (unit_value n d); (assumption || lia).
Qed.

(** X6: without the shortcut, Power of an element of value other than 0 to
    any exponent >= 0 returns the element of value value^exponent mod n. *)
Theorem direct_power_is_power (a fuel : nat) (n v exponent : Z) :
  2 <= n -> n <= Z.of_nat fuel -> v mod n <> 0 -> 0 <= exponent ->
  exists r x res,
    ModRing_new a fuel n = Return r /\
    ModRing_call r v = Return x /\
    ModInt.__pow__ fuel x exponent false = Return (ModInt.Elt res) /\
    ModInt.ring res = r /\
    ModInt.value res = ModInt.value x ^ exponent mod n.
Proof.
  intros Hn Hfuel H0 He.
  destruct (ring_new_spec a fuel n ltac:(lia) Hfuel) as (d & Hnew & Hfact).
  assert (Hn1 : 1 <= n) by lia.
  eexists. eexists. exists (mint {| addr := a; obj := ModRing.mk n d (dict_phi d) |}
                                 ((v mod n) ^ exponent)).
  split; [exact Hnew|]. split; [apply call_ok; assumption|].
  split; [|split; reflexivity].
  destruct (Z.eq_dec exponent 0) as [->|He0].
  { rewrite Z.pow_0_r. apply pow_one; [assumption | assumption | left; reflexivity]. }
  destruct (Z.eq_dec (v mod n) 1) as [H1|H1].
  { rewrite H1. rewrite Z.pow_1_l by lia.
    apply pow_one; [assumption | assumption | right; assumption]. }
  apply pow_direct; (assumption || lia).
Qed.

Lemma direct_power_is_power_witness :
  exists r x res,
    ModRing_new 0 12 12 = Return r /\
    ModRing_call r 6 = Return x /\
    ModInt.__pow__ 12 x 3 false = Return (ModInt.Elt res) /\
    ModInt.ring res = r /\
    ModInt.value res = ModInt.value x ^ 3 mod 12.
Proof.
  apply (direct_power_is_power 0 12 12 6 3); [lia | simpl; lia | | lia].
  vm_compute. discriminate.
Defined.

(** X7: whenever n < 2^exponent, the shortcut and the direct computation
    return equal elements, for every modulus n >= 2 and every element of
    value other than 0; this covers the sweep of the script, n in
    range(2, 1000) with exponent 100. *)
Theorem shortcut_equals_direct_above_log (a fuel : nat) (n v exponent : Z) :
  2 <= n -> n <= Z.of_nat fuel -> v mod n <> 0 -> n < 2 ^ exponent ->
  exists r x res1 res2,
    ModRing_new a fuel n = Return r /\
    ModRing_call r v = Return x /\
    ModInt.__pow__ fuel x exponent true = Return (ModInt.Elt res1) /\
    ModInt.__pow__ fuel x exponent false = Return (ModInt.Elt res2) /\
    ModInt.value res2 = ModInt.value x ^ exponent mod n /\
    ModInt.__eq__ res1 (ModInt.Elt res2) = Return true.
Proof.
  intros Hn Hfuel H0 Hbig.
  destruct (ring_new_spec a fuel n ltac:(lia) Hfuel) as (d & Hnew & Hfact).
  assert (Hn1 : 1 <= n) by lia.
  assert (He : 0 < exponent).
  { destruct (Z_lt_le_dec 0 exponent) as [|Hle]; [assumption|exfalso].
    destruct (Z.eq_dec exponent 0) as [->|]; [cbn in Hbig; lia|].
    rewrite Z.pow_neg_r in Hbig by lia. lia. }
  destruct (Z.eq_dec (v mod n) 1) as [H1|H1].
  - eexists. eexists. eexists. eexists.
    split; [exact Hnew|]. split; [apply call_ok; assumption|].
    split; [apply pow_one; [assumption | assumption | right; assumption]|].
    split; [apply pow_one; [assumption | assumption | right; assumption]|].
    split.
    + cbn [mint ModInt.value obj ModRing.n]. rewrite H1, Z.pow_1_l by lia. reflexivity.
    + rewrite eq_same_ring, Z.eqb_refl. reflexivity.
  - assert (Hnp : fold_left (fun acc x => Z.max x acc) (nul_pows d (v mod n)) (-1)
                  < exponent).
    { apply (nul_pow_small d n); (assumption || lia). }
    destruct (pow_short_value a fuel n d v exponent Hn1 Hfuel Hfact H0 H1 He Hnp)
      as (c & Hshort & Ec).
    eexists. eexists. eexists. eexists.
    split; [exact Hnew|]. split; [apply call_ok; assumption|].
    split; [exact Hshort|].
    split; [apply pow_direct; (assumption || lia)|].
    split; [reflexivity|].
    rewrite eq_same_ring. cbn [obj ModRing.n]. rewrite Ec, Z.eqb_refl. reflexivity.
Qed.

Lemma shortcut_equals_direct_above_log_witness :
  exists r x res1 res2,
    ModRing_new 0 999 999 = Return r /\
    ModRing_call r 998 = Return x /\
    ModInt.__pow__ 999 x 100 true = Return (ModInt.Elt res1) /\
    ModInt.__pow__ 999 x 100 false = Return (ModInt.Elt res2) /\
    ModInt.value res2 = ModInt.value x ^ 100 mod 999 /\
    ModInt.__eq__ res1 (ModInt.Elt res2) = Return true.
Proof.
  apply (shortcut_equals_direct_above_log 0 999 999 998 100);
    [lia | simpl; lia | vm_compute; discriminate | vm_compute; reflexivity].
Defined.

(** X8: with the shortcut, Power returns None exactly for an element of
    value other than 0 and 1 and an exponent with 0 < exponent <= nul_pow,
    nul_pow being what decompose returns; without the shortcut it never
    returns None. *)
Theorem power_returns_None_iff (a fuel : nat) (n v exponent : Z) :
  2 <= n -> n <= Z.of_nat fuel ->
  exists r x nul_pow k m,
    ModRing_new a fuel n = Return r /\
    ModRing_call r v = Return x /\
    ModInt.decompose x = Return (nul_pow, k, m) /\
    (ModInt.__pow__ fuel x exponent true = Return ModInt.None_
     <-> ModInt.value x <> 0 /\ ModInt.value x <> 1 /\ 0 < exponent <= nul_pow) /\
    ModInt.__pow__ fuel x exponent false <> Return ModInt.None_.
Proof.
  intros Hn Hfuel.
  destruct (ring_new_spec a fuel n ltac:(lia) Hfuel) as (d & Hnew & Hfact).
  assert (Hn1 : 1 <= n) by lia.
  eexists. eexists. eexists. eexists. eexists.
  split; [exact Hnew|]. split; [apply call_ok; assumption|].
  split; [apply (decompose_ok a n d Hfact)|].
  cbn [mint ModInt.value obj ModRing.n].
  set (np := fold_left (fun acc x => Z.max x acc) (nul_pows d (v mod n)) (-1)).
  assert (Hfalse : ModInt.__pow__ fuel
            (mint {| addr := a; obj := ModRing.mk n d (dict_phi d) |} v) exponent false
          <> Return ModInt.None_).
  { destruct (Z.eq_dec (v mod n) 0) as [H0|H0];
      [rewrite pow_zero by assumption; discriminate|].
    destruct (Z.eq_dec (v mod n) 1) as [H1|H1];
      [rewrite pow_one by tauto; discriminate|].
    destruct (Z.eq_dec exponent 0) as [He0|He0];
      [rewrite pow_one by tauto; discriminate|].
    destruct (Z_lt_le_dec exponent 0) as [Hneg|Hpos].
    - destruct (shared d (v mod n)) as [|pe l] eqn:Hs.
      + rewrite (pow_negative_unit a fuel n d) by assumption. discriminate.
      + rewrite (pow_negative_nonunit a fuel n d);
          [discriminate | assumption | assumption | assumption | assumption |].
        rewrite Hs. discriminate.
    - rewrite pow_direct by (assumption || lia). discriminate. }
  split; [|exact Hfalse].
  destruct (Z.eq_dec (v mod n) 0) as [H0|H0].
  { rewrite pow_zero by assumption. split; [discriminate | tauto]. }
  destruct (Z.eq_dec (v mod n) 1) as [H1|H1].
  { rewrite pow_one by tauto. split; [discriminate | tauto]. }
  destruct (Z.eq_dec exponent 0) as [He0|He0].
  { rewrite pow_one by tauto. split; [discriminate | lia]. }
  destruct (Z_lt_le_dec exponent 0) as [Hneg|Hpos].
  { destruct (shared d (v mod n)) as [|pe l] eqn:Hs.
    - rewrite (pow_negative_unit a fuel n d) by assumption.
      split; [discriminate | lia].
    - rewrite (pow_negative_nonunit a fuel n d);
        [split; [discriminate | lia] | assumption | assumption | assumption
         | assumption |].
      rewrite Hs. discriminate. }
  destruct (Z_lt_le_dec np exponent) as [Hbig|Hsmall].
  - destruct (pow_short_value a fuel n d v exponent Hn1 Hfuel Hfact H0 H1
                ltac:(lia) Hbig) as (c & Hrun & _).
    rewrite Hrun. split; [discriminate | lia].
  - rewrite (pow_short_fallthrough a fuel n d); try assumption.
    + split; [intros _; repeat split; (assumption || lia) | reflexivity].
    + intros Hs. unfold np, nul_pows in Hsmall. rewrite Hs in Hsmall.
      cbn in Hsmall. lia.
    + fold np. lia.
Qed.

Lemma power_returns_None_iff_witness :
  exists r x nul_pow k m,
    ModRing_new 0 16 16 = Return r /\
    ModRing_call r 2 = Return x /\
    ModInt.decompose x = Return (nul_pow, k, m) /\
    (ModInt.__pow__ 16 x 3 true = Return ModInt.None_
     <-> ModInt.value x <> 0 /\ ModInt.value x <> 1 /\ 0 < 3 <= nul_pow) /\
    ModInt.__pow__ 16 x 3 false <> Return ModInt.None_.
Proof. apply (power_returns_None_iff 0 16 16 2 3); simpl; lia. Defined.

(** X9: for a unit, Power follows the law of exponents for all integer
    exponents, negative ones included, in either mode:
    a^e1 * a^e2 == a^(e1 + e2); each power has the value
    value^(e mod phi(n)) mod n. *)
Theorem unit_exponent_law (a fuel : nat) (n v e1 e2 : Z) (short : bool) :
  2 <= n -> n <= Z.of_nat fuel -> Z.gcd (v mod n) n = 1 ->
  exists r x p1 p2 p12 prod,
    ModRing_new a fuel n = Return r /\
    ModRing_call r v = Return x /\
    ModInt.__pow__ fuel x e1 short = Return (ModInt.Elt p1) /\
    ModInt.__pow__ fuel x e2 short = Return (ModInt.Elt p2) /\
    ModInt.__pow__ fuel x (e1 + e2) short = Return (ModInt.Elt p12) /\
    ModInt.value p1 = ModInt.value x ^ (e1 mod ModRing.phi (obj r)) mod n /\
    ModInt.__mul__ p1 (ModInt.Elt p2) = Return prod /\
    ModInt.__eq__ prod (ModInt.Elt p12) = Return true.
Proof.
  intros Hn Hfuel Hg.
  destruct (ring_new_spec a fuel n ltac:(lia) Hfuel) as (d & Hnew & Hfact).
  assert (Hn1 : 1 <= n) by lia.
  pose proof (NatBridge.totientZ_pos n ltac:(lia)) as Hphi.
  pose proof (w_bounds n Hn1 v) as Hw.
  destruct (unit_pow a fuel n d v e1 short Hn Hfact Hg) as (c1 & Hp1 & E1).
  destruct (unit_pow a fuel n d v e2 short Hn Hfact Hg) as (c2 & Hp2 & E2).
  destruct (unit_pow a fuel n d v (e1 + e2) short Hn Hfact Hg) as (c12 & Hp12 & E12).
  eexists. eexists. eexists. eexists. eexists. eexists.
  split; [exact Hnew|]. split; [apply call_ok; assumption|].
  split; [exact Hp1|]. split; [exact Hp2|]. split; [exact Hp12|].
  split.
  { cbn [mint ModInt.value obj ModRing.n ModRing.phi].
    rewrite (phi_totient n d Hfact). exact E1. }
  split; [apply (mul_mint a n d Hn1)|].
  rewrite eq_same_ring. cbn [obj ModRing.n].
  replace (c12 mod n) with ((c1 * c2) mod n); [rewrite Z.eqb_refl; reflexivity|].
  rewrite Z.mul_mod, E1, E2, E12 by lia.
  rewrite <- Z.mul_mod by lia.
  pose proof (Z.mod_pos_bound e1 _ Hphi). pose proof (Z.mod_pos_bound e2 _ Hphi).
  rewrite <- Z.pow_add_r by lia.
  rewrite <- (Euler_reduce (v mod n) n (e1 mod NatBridge.totientZ n
                                         + e2 mod NatBridge.totientZ n))
    by (assumption || lia).
  rewrite <- Z.add_mod by lia. reflexivity.
Qed.

Lemma unit_exponent_law_witness :
  exists r x p1 p2 p12 prod,
    ModRing_new 0 35 35 = Return r /\
    ModRing_call r 12 = Return x /\
    ModInt.__pow__ 35 x (-3) true = Return (ModInt.Elt p1) /\
    ModInt.__pow__ 35 x 5 true = Return (ModInt.Elt p2) /\
    ModInt.__pow__ 35 x (-3 + 5) true = Return (ModInt.Elt p12) /\
    ModInt.value p1 = ModInt.value x ^ (-3 mod ModRing.phi (obj r)) mod 35 /\
    ModInt.__mul__ p1 (ModInt.Elt p2) = Return prod /\
    ModInt.__eq__ prod (ModInt.Elt p12) = Return true.
Proof.
  apply (unit_exponent_law 0 35 35 12 (-3) 5 true); [lia | simpl; lia | reflexivity].
Defined.

(* The inverse that __floordiv__ multiplies by. *)
Lemma inverse_value (n v c : Z) :
  2 <= n -> Z.gcd (v mod n) n = 1 ->
  c mod n = (v mod n) ^ ((-1) mod NatBridge.totientZ n) mod n ->
  (c * v) mod n = 1 mod n.
Proof.
  intros Hn Hg Ec.
  pose proof (NatBridge.totientZ_pos n ltac:(lia)) as Hphi.
  pose proof (Z.mod_pos_bound v n ltac:(lia)) as Hw.
  rewrite Z.mul_mod, Ec by lia.
  rewrite Z.mul_mod_idemp_l by lia.
  rewrite (mod_minus_one _ Hphi).
  rewrite <- (Z.pow_1_r (v mod n)) at 2.
  rewrite <- Z.pow_add_r by lia.
  replace (NatBridge.totientZ n - 1 + 1) with (NatBridge.totientZ n) by lia.
  apply NatBridge.Euler_Z; (assumption || lia).
Qed.

(** X10: floor division a // b fails with ValueError when b has value 0,
    fails with the assertion on coprimality when b is not a unit, and
    otherwise returns a quotient q with q * b == a. *)
Theorem floordiv_spec (a fuel : nat) (n u v : Z) :
  2 <= n -> n <= Z.of_nat fuel ->
  exists r x y,
    ModRing_new a fuel n = Return r /\
    ModRing_call r u = Return x /\
    ModRing_call r v = Return y /\
    (ModInt.value y = 0 ->
       ModInt.__floordiv__ fuel x (ModInt.Elt y)
       = Raise (ValueError ModInt.zero_power)) /\
    (ModInt.value y <> 0 -> Z.gcd (ModInt.value y) n <> 1 ->
       ModInt.__floordiv__ fuel x (ModInt.Elt y)
       = Raise (AssertionError ModInt.non_coprime)) /\
    (Z.gcd (ModInt.value y) n = 1 ->
       exists q,
         ModInt.__floordiv__ fuel x (ModInt.Elt y) = Return q /\
         (back <- ModInt.__mul__ q (ModInt.Elt y) ;;
          ModInt.__eq__ back (ModInt.Elt x)) = Return true).
Proof.
  intros Hn Hfuel.
  destruct (ring_new_spec a fuel n ltac:(lia) Hfuel) as (d & Hnew & Hfact).
  assert (Hn1 : 1 <= n) by lia.
  eexists. eexists. eexists.
  split; [exact Hnew|]. split; [apply call_ok; assumption|].
  split; [apply call_ok; assumption|].
  cbn [mint ModInt.value obj ModRing.n].
  unfold ModInt.__floordiv__.
  cbn [ModInt.assert_type bind mint ModInt.ring].
  unfold ring_is. rewrite Nat.eqb_refl. cbn [assert_ bind].
  fold (mint {| addr := a; obj := ModRing.mk n d (dict_phi d) |} u).
  fold (mint {| addr := a; obj := ModRing.mk n d (dict_phi d) |} v).
  split; [|split].
  - intros H0. rewrite pow_zero by assumption. reflexivity.
  - intros H0 Hg.
    assert (H1 : v mod n <> 1) by (intros E; rewrite E, Z.gcd_1_l in Hg; lia).
    rewrite (pow_negative_nonunit a fuel n d); try assumption; [reflexivity | lia |].
    intros Hs. apply Hg. apply (shared_nil_iff n d Hfact). assumption.
  - intros Hg.
    destruct (unit_pow a fuel n d v (-1) true Hn Hfact Hg) as (c & Hinv & Ec).
    rewrite Hinv. cbn [bind]. rewrite (mul_mint a n d Hn1).
    eexists. split; [reflexivity|].
    rewrite (mul_mint a n d Hn1). cbn [bind]. rewrite eq_same_ring.
    cbn [obj ModRing.n].
    replace ((u * c * v) mod n) with (u mod n); [rewrite Z.eqb_refl; reflexivity|].
    rewrite <- Z.mul_assoc, Z.mul_mod, (inverse_value n v c Hn Hg Ec) by lia.
    rewrite <- Z.mul_mod by lia. rewrite Z.mul_1_r. reflexivity.
Qed.

Lemma floordiv_spec_witness :
  exists r x y,
    ModRing_new 0 12 12 = Return r /\
    ModRing_call r 6 = Return x /\
    ModRing_call r 7 = Return y /\
    (ModInt.value y = 0 ->
       ModInt.__floordiv__ 12 x (ModInt.Elt y)
       = Raise (ValueError ModInt.zero_power)) /\
    (ModInt.value y <> 0 -> Z.gcd (ModInt.value y) 12 <> 1 ->
       ModInt.__floordiv__ 12 x (ModInt.Elt y)
       = Raise (AssertionError ModInt.non_coprime)) /\
    (Z.gcd (ModInt.value y) 12 = 1 ->
       exists q,
         ModInt.__floordiv__ 12 x (ModInt.Elt y) = Return q /\
         (back <- ModInt.__mul__ q (ModInt.Elt y) ;;
          ModInt.__eq__ back (ModInt.Elt x)) = Return true).
Proof. apply (floordiv_spec 0 12 12 6 7); simpl; lia. Defined.

(** ** More on decompose *)

Lemma prime_divides_power (p c t : Z) :
  Z.prime p -> 0 <= t -> (p | c ^ t) -> (p | c).
Proof.
  intros Hp Ht Hd. pose proof (Z.prime_ge_2 _ Hp).
  destruct (Z.coprime_prime_l_iff p c Hp) as [_ Hco].
  destruct (Z.eq_dec (c mod p) 0) as [Hr|Hr];
    [apply Z.mod_divide in Hr; [assumption | lia] | exfalso].
  assert (Hnd : ~ (p | c)).
  { intros Hx. apply Hr. apply Z.mod_divide; [lia | assumption]. }
  specialize (Hco Hnd).
  pose proof (Z.coprime_pow_r p c t Ht Hco) as Hcot. unfold Z.coprime in Hcot.
  pose proof (Z.gcd_greatest p (c ^ t) p (Z.divide_refl p) Hd) as Hg.
  rewrite Hcot in Hg. apply Z.divide_1_r_nonneg in Hg; lia.
Qed.

(* A prime dividing a product of prime powers is one of its primes. *)
Lemma prime_divides_dict_prod (p : Z) (l : dict) :
  Z.prime p -> Forall (fun pe => Z.prime (fst pe) /\ 0 < snd pe) l ->
  (p | dict_prod l) -> In p (keys l).
Proof.
  intros Hp HF. induction HF as [|pe l [Hq He] _ IH]; intros Hd.
  - cbn in Hd. pose proof (Z.prime_ge_2 _ Hp).
    apply Z.divide_1_r_nonneg in Hd; lia.
  - rewrite dict_prod_cons in Hd.
    apply (Z.divide_prime_mul _ _ p Hp) in Hd. destruct Hd as [Hd|Hd].
    + left. symmetry. apply (Z.divide_prime_pp p (fst pe) (snd pe)); (assumption || lia).
    + right. apply IH. assumption.
Qed.

(* Below nul_pow_p the exponent is too small for p^e. *)
Lemma nul_pow_of_short (e value_e t : Z) :
  1 <= value_e <= e -> 0 <= t <= nul_pow_of e value_e -> value_e * t < e.
Proof.
  intros H. unfold nul_pow_of.
  pose proof (Z.div_mod e value_e ltac:(lia)) as E.
  pose proof (Z.mod_pos_bound e value_e ltac:(lia)) as Hm.
  destruct (Z.eqb_spec (e mod value_e) 0) as [Hr|Hr]; intros Ht; nia.
Qed.

Lemma power_not_divisible (p e w t : Z) :
  Z.prime p -> 0 < e -> (p | w) -> 0 <= t ->
  t <= nul_pow_of e (clipped_multiplicity p e w) -> ~ (p ^ e | w ^ t).
Proof.
  intros Hp He Hdiv Ht Hsmall Hd. pose proof (Z.prime_ge_2 _ Hp) as Hp2.
  pose proof (clipped_multiplicity_bounds p e w Hp2 He Hdiv) as Hb.
  pose proof (multiplicity_upto_divides p w (Z.to_nat e) Hp2) as [_ Hve].
  fold (clipped_multiplicity p e w) in Hve.
  pose proof (multiplicity_upto_greatest p w (Z.to_nat e)) as Hgreat.
  fold (clipped_multiplicity p e w) in Hgreat.
  set (ve := clipped_multiplicity p e w) in *.
  pose proof (nul_pow_of_short e ve t Hb ltac:(lia)) as Hshort.
  destruct (Z.eq_dec t 0) as [->|Ht0].
  { rewrite Z.pow_0_r in Hd.
    pose proof (pow_ge_1 p e ltac:(lia) ltac:(lia)).
    assert (p <= p ^ e).
    { rewrite <- (Z.pow_1_r p) at 1. apply Z.pow_le_mono_r; lia. }
    apply Z.divide_1_r_nonneg in Hd; lia. }
  assert (Hlt : ve < e) by nia.
  destruct Hve as [c Hc].
  assert (Hpc : ~ (p | c)).
  { intros [c' Hc']. assert (Hbig : (p ^ (ve + 1) | w)).
    { exists c'. rewrite Hc, Hc', Z.pow_add_r, Z.pow_1_r by lia. ring. }
    specialize (Hgreat (ve + 1) Hp2 ltac:(lia) Hbig). lia. }
  apply Hpc. apply (prime_divides_power p c t Hp Ht).
  rewrite <- (Z.pow_1_r p) at 1.
  apply (pow_mul_divide_cancel p Hp2 (ve * t)); [lia | lia |].
  apply Z.divide_trans with (p ^ e); [apply pow_divide_mono; lia|].
  replace (p ^ (ve * t) * c ^ t) with (w ^ t); [assumption|].
  rewrite Hc, Z.pow_mul_l, <- Z.pow_mul_r by lia. ring.
Qed.

(** X11: decompose splits the modulus: n = k * m with k and m coprime, the
    value is coprime to m, every prime dividing k divides the value, and m is
    the largest divisor of n coprime to the value (every such divisor
    divides m). *)
Theorem decompose_splits_modulus (a fuel : nat) (n v : Z) :
  2 <= n -> n <= Z.of_nat fuel ->
  exists r x nul_pow k m,
    ModRing_new a fuel n = Return r /\
    ModRing_call r v = Return x /\
    ModInt.decompose x = Return (nul_pow, k, m) /\
    n = k * m /\ 1 <= k /\ 1 <= m /\
    Z.gcd k m = 1 /\
    Z.gcd (ModInt.value x) m = 1 /\
    (forall p, Z.prime p -> (p | k) -> (p | ModInt.value x)) /\
    (forall c, (c | n) -> Z.gcd c (ModInt.value x) = 1 -> (c | m)).
Proof.
  intros Hn Hfuel.
  destruct (ring_new_spec a fuel n ltac:(lia) Hfuel) as (d & Hnew & Hfact).
  assert (Hn1 : 1 <= n) by lia.
  pose proof (factors_prime n d Hfact) as HF.
  pose proof Hfact as (Hnd & _ & _).
  destruct (k_times_m n d Hfact v) as (Enkm & Hk & Hm & Em).
  eexists. eexists. eexists. eexists. eexists.
  split; [exact Hnew|]. split; [apply call_ok; assumption|].
  split; [apply (decompose_ok a n d Hfact)|].
  cbn [mint ModInt.value obj ModRing.n].
  split; [exact Enkm|]. split; [exact Hk|]. split; [exact Hm|].
  split; [rewrite Em; apply shared_coprime_unshared; assumption|].
  split; [rewrite Em; apply value_coprime_unshared; assumption|].
  assert (Hprimes : forall p, Z.prime p -> (p | dict_prod (shared d (v mod n))) ->
                              (p | v mod n)).
  { intros p Hp Hd.
    pose proof (prime_divides_dict_prod p _ Hp (shared_factors d _ HF) Hd) as Hin.
    unfold keys in Hin. apply in_map_iff in Hin. destruct Hin as (pe & <- & Hin).
    apply (shared_in n d Hfact) in Hin. tauto. }
  split; [exact Hprimes|].
  intros c Hcn Hcv.
  apply Z.gauss with (dict_prod (shared d (v mod n))); [rewrite <- Enkm; assumption|].
  assert (H : forall l, (forall pe, In pe l -> In pe (shared d (v mod n))) ->
                        Z.coprime c (dict_prod l)).
  { induction l as [|pe l IH]; intros Hsub.
    - apply Z.coprime_1_r.
    - rewrite dict_prod_cons. apply Z.coprime_mul_r;
        [|apply IH; intros qe Hq; apply Hsub; right; assumption].
      assert (Hpe : In pe (shared d (v mod n))) by (apply Hsub; left; reflexivity).
      apply (shared_in n d Hfact) in Hpe. destruct Hpe as [Hin Hdv].
      rewrite Forall_forall in HF. destruct (HF pe Hin) as [Hp He].
      pose proof (Z.prime_ge_2 _ Hp).
      apply Z.coprime_pow_r; [lia|]. apply Z.Symmetric_coprime.
      apply Z.coprime_prime_l; [assumption|]. intros Hpc.
      pose proof (Z.gcd_greatest _ _ _ Hpc Hdv) as Hg. rewrite Hcv in Hg.
      apply Z.divide_1_r_nonneg in Hg; lia. }
  apply H. auto.
Qed.

Lemma decompose_splits_modulus_witness :
  exists r x nul_pow k m,
    ModRing_new 0 360 360 = Return r /\
    ModRing_call r 12 = Return x /\
    ModInt.decompose x = Return (nul_pow, k, m) /\
    360 = k * m /\ 1 <= k /\ 1 <= m /\
    Z.gcd k m = 1 /\
    Z.gcd (ModInt.value x) m = 1 /\
    (forall p, Z.prime p -> (p | k) -> (p | ModInt.value x)) /\
    (forall c, (c | 360) -> Z.gcd c (ModInt.value x) = 1 -> (c | m)).
Proof. apply (decompose_splits_modulus 0 360 360 12); simpl; lia. Defined.

(** X12: the nul_pow that decompose returns is the exact threshold: for
    every t >= 0, the k it returns divides value^t if and only if
    t > nul_pow. *)
Theorem nul_pow_is_threshold (a fuel : nat) (n v t : Z) :
  2 <= n -> n <= Z.of_nat fuel -> 0 <= t ->
  exists r x nul_pow k m,
    ModRing_new a fuel n = Return r /\
    ModRing_call r v = Return x /\
    ModInt.decompose x = Return (nul_pow, k, m) /\
    ((k | ModInt.value x ^ t) <-> nul_pow < t).
Proof.
  intros Hn Hfuel Ht.
  destruct (ring_new_spec a fuel n ltac:(lia) Hfuel) as (d & Hnew & Hfact).
  assert (Hn1 : 1 <= n) by lia.
  pose proof (factors_prime n d Hfact) as HF.
  pose proof Hfact as (Hnd & _ & _).
  pose proof (w_bounds n Hn1 v) as Hw.
  eexists. eexists. eexists. eexists. eexists.
  split; [exact Hnew|]. split; [apply call_ok; assumption|].
  split; [apply (decompose_ok a n d Hfact)|].
  cbn [mint ModInt.value obj ModRing.n].
  destruct (fold_max_spec (nul_pows d (v mod n)) (-1)) as (_ & Hall & Hin).
  set (np := fold_left (fun acc x => Z.max x acc) (nul_pows d (v mod n)) (-1)) in *.
  split.
  - intros Hd. destruct Hin as [E|Hin]; [lia|].
    destruct (Z_lt_le_dec np t) as [|Hle]; [assumption|exfalso].
    destruct (nul_pows_in d (v mod n) np HF Hin) as (pe & Hs & Enp & _).
    pose proof (shared_factors d (v mod n) HF) as HFs.
    pose proof (key_divides _ pe HFs Hs) as Hpk.
    apply (shared_in n d Hfact) in Hs. destruct Hs as [Hpe Hdv].
    rewrite Forall_forall in HF. destruct (HF pe Hpe) as [Hp He].
    apply (power_not_divisible (fst pe) (snd pe) (v mod n) t Hp He Hdv Ht);
      [rewrite <- Enp; assumption|].
    eapply Z.divide_trans; eassumption.
  - intros Hlt. apply shared_divides_power; try assumption; [lia|].
    intros x Hx. rewrite Forall_forall in Hall. specialize (Hall x Hx). lia.
Qed.

Lemma nul_pow_is_threshold_witness :
  exists r x nul_pow k m,
    ModRing_new 0 16 16 = Return r /\
    ModRing_call r 2 = Return x /\
    ModInt.decompose x = Return (nul_pow, k, m) /\
    ((k | ModInt.value x ^ 3) <-> nul_pow < 3).
Proof. apply (nul_pow_is_threshold 0 16 16 2 3); simpl; lia. Defined.

(** ** More on the constructor of a ring *)

Lemma while_divides_zero (fuel : nat) : forall c,
  ModRing.while_divides fuel 2 0 [(2, c)] 0 0 = Timeout.
Proof.
  induction fuel as [|fuel IH]; intros c; [reflexivity|].
  cbn [ModRing.while_divides Z.eqb dict_get dict_set bind Pos.eqb].
  rewrite divmod_ok by lia. cbn [bind]. apply IH.
Qed.

(** X13: the constructor does not return for the modulus 0: the loop that
    divides by 2 never ends, whatever the number of iterations allowed. *)
Theorem ring_of_zero_diverges (a fuel : nat) :
  ModRing.factorize fuel 0 = Timeout /\ ModRing_new a fuel 0 = Timeout.
Proof.
  assert (H : ModRing.factorize fuel 0 = Timeout).
  { unfold ModRing.factorize, ModRing.try_divisor.
    rewrite divmod_ok by lia. cbn [bind Z.eqb dict_set Z.div Z.modulo Z.div_eucl].
    rewrite while_divides_zero. reflexivity. }
  split; [exact H|].
  unfold ModRing_new, ModRing.__init__. rewrite H. reflexivity.
Qed.

Lemma sorted_snoc (l : list Z) (k : Z) :
  StronglySorted Z.lt l -> (forall x, In x l -> x < k) ->
  StronglySorted Z.lt (l ++ [k]).
Proof.
  induction 1 as [|x l Hs IH Hx]; intros Hlt; cbn [app].
  - constructor; constructor.
  - constructor.
    + apply IH. intros y Hy. apply Hlt. right. assumption.
    + apply Forall_app. split; [assumption|].
      constructor; [apply Hlt; left; reflexivity | constructor].
Qed.

Lemma keys_lt (m : Z) (d : dict) :
  Forall (fun pe => Z.prime (fst pe) /\ fst pe < m /\ 0 < snd pe) d ->
  forall x, In x (keys d) -> x < m.
Proof.
  intros HF x Hin. unfold keys in Hin. apply in_map_iff in Hin.
  destruct Hin as (pe & <- & Hin). rewrite Forall_forall in HF.
  specialize (HF pe Hin). lia.
Qed.

Lemma while_odd_sorted (n : Z) (budget fuel : nat) : forall m z d z' d',
  odd_inv n m z d -> z <= Z.of_nat budget ->
  StronglySorted Z.lt (keys d) ->
  ModRing.while_odd budget fuel m z d = Return (z', d') ->
  StronglySorted Z.lt (keys d').
Proof.
  induction fuel as [|fuel IH]; intros m z d z' d' Hinv Hbudget Hs Hrun;
    cbn [ModRing.while_odd] in Hrun;
    destruct (m * m <=? z); try discriminate;
    try (injection Hrun as <- <-; assumption).
  pose proof Hinv as [Hm Hodd Hz Hprod Hkeys Hnd Hsmall].
  assert (Hfresh : ~ In m (keys d)) by (apply (keys_below m); [assumption | lia]).
  destruct (try_divisor_spec m ltac:(lia) budget z d Hz Hfresh Hbudget)
    as (j & z1 & Hj & Hz1 & Ej & Hr1 & Hrun1).
  destruct (odd_step n budget m z d Hinv Hbudget) as (z2 & d2 & Hrun2 & Hinv2 & Hle).
  rewrite Hrun1 in Hrun2. injection Hrun2 as <- <-.
  rewrite Hrun1 in Hrun. cbn [bind] in Hrun.
  apply (IH _ _ _ _ _ Hinv2 ltac:(lia)) in Hrun; [assumption|].
  destruct (j =? 0); [assumption|].
  rewrite keys_app. apply sorted_snoc; [assumption|].
  apply (keys_lt m). assumption.
Qed.

Lemma ring_new_factors (a fuel : nat) (n : Z) (r : ModRingRef) :
  ModRing_new a fuel n = Return r ->
  ModRing.factorize fuel n = Return (ModRing.prime_factors (obj r)).
Proof.
  unfold ModRing_new, ModRing.__init__.
  destruct (ModRing.factorize fuel n) as [pf| |]; cbn [bind]; try discriminate.
  destruct (ModRing.compute_phi n pf) as [ph| |]; cbn [bind]; try discriminate.
  intros E. injection E as <-. reflexivity.
Qed.

(** X14: the prime factors are stored, and so iterated, in strictly
    increasing order. *)
Theorem prime_factors_increasing (a fuel : nat) (n : Z) :
  1 <= n -> n <= Z.of_nat fuel ->
  exists r,
    ModRing_new a fuel n = Return r /\
    StronglySorted Z.lt (keys (ModRing.prime_factors (obj r))).
Proof.
  intros Hn Hfuel.
  destruct (ring_new_spec a fuel n Hn Hfuel) as (d & Hnew & Hfact).
  eexists. split; [exact Hnew|].
  pose proof (ring_new_factors _ _ _ _ Hnew) as Hrun.
  cbn [obj ModRing.prime_factors] in *.
  unfold ModRing.factorize in Hrun.
  destruct (try_divisor_spec 2 ltac:(lia) fuel n [] Hn (fun H => H) Hfuel)
    as (j & z0 & Hj & Hz0 & Ej & Hr0 & Hrun0).
  rewrite Hrun0 in Hrun. cbn [bind] in Hrun.
  assert (Hle0 : z0 <= n).
  { rewrite Ej. pose proof (pow_ge_1 2 j ltac:(lia) Hj). nia. }
  assert (Hinv0 : odd_inv n 3 z0 (if j =? 0 then [] else [] ++ [(2, j)])).
  { constructor; try lia; try reflexivity.
    - destruct (Z.eqb_spec j 0) as [->|]; simpl.
      + rewrite Ej. simpl. destruct z0; reflexivity.
      + rewrite Ej. ring.
    - destruct (Z.eqb_spec j 0); simpl; constructor; [|constructor].
      cbn [fst snd]. split; [exact Z.prime_2 | lia].
    - destruct (Z.eqb_spec j 0); simpl; repeat constructor; simpl; tauto.
    - intros q Hq Hd. assert (q = 2) by lia. subst q.
      apply Hr0. apply Z.mod_divide; [lia | assumption]. }
  assert (Hs0 : StronglySorted Z.lt (keys (if j =? 0 then [] else [] ++ [(2, j)]))).
  { destruct (j =? 0); cbn; repeat constructor. }
  destruct (while_odd_spec n fuel fuel 3 z0 _ Hinv0 ltac:(lia) ltac:(lia))
    as (m' & z' & d' & Hrun1 & Hinv & Hstop).
  pose proof (while_odd_sorted n fuel fuel _ _ _ _ _ Hinv0 ltac:(lia) Hs0 Hrun1) as Hs.
  rewrite Hrun1 in Hrun. cbn [bind] in Hrun.
  destruct (Z.eqb_spec z' 1) as [->|Hz1]; cbn [negb] in Hrun.
  - injection Hrun as <-. assumption.
  - destruct (cofactor_prime n m' z' d' Hinv Hstop Hz1) as [Hp Hmz].
    assert (Hfresh : ~ In z' (keys d'))
      by (apply (keys_below m'); [apply Hinv | assumption]).
    rewrite dict_set_fresh in Hrun by assumption. injection Hrun as <-.
    rewrite keys_app. change (keys [(z', 1)]) with [z'].
    apply sorted_snoc; [assumption|].
    intros x Hx. pose proof (keys_lt m' d' (inv_keys _ _ _ _ Hinv) x Hx). lia.
Qed.

Lemma prime_factors_increasing_witness :
  exists r,
    ModRing_new 0 360 360 = Return r /\
    StronglySorted Z.lt (keys (ModRing.prime_factors (obj r))).
Proof. apply (prime_factors_increasing 0 360 360); simpl; lia. Defined.

Lemma filter_all {A : Type} (f : A -> bool) (l : list A) :
  (forall x, In x l -> f x = true) -> filter f l = l.
Proof.
  induction l as [|x l IH]; intros H; cbn [filter]; [reflexivity|].
  rewrite (H x (or_introl eq_refl)). f_equal. apply IH.
  intros y Hy. apply H. right. assumption.
Qed.

Lemma range_length (lo hi : Z) : Z.of_nat (length (range lo hi)) = Z.max 0 (hi - lo).
Proof. unfold range. rewrite length_map, length_seq. lia. Qed.

Lemma range_in (lo hi x : Z) : In x (range lo hi) -> lo <= x < hi.
Proof.
  unfold range. intros Hin. apply in_map_iff in Hin.
  destruct Hin as (i & <- & Hi). apply in_seq in Hi. lia.
Qed.

(** X15: for n >= 2 the totient of the ring lies between 1 and n - 1, and
    it is n - 1 when n is prime. *)
Theorem phi_bounds (a fuel : nat) (n : Z) :
  2 <= n -> n <= Z.of_nat fuel ->
  exists r,
    ModRing_new a fuel n = Return r /\
    1 <= ModRing.phi (obj r) <= n - 1 /\
    (Z.prime n -> ModRing.phi (obj r) = n - 1).
Proof.
  intros Hn Hfuel.
  destruct (ring_new_spec a fuel n ltac:(lia) Hfuel) as (d & Hnew & Hfact).
  eexists. split; [exact Hnew|]. cbn [obj ModRing.phi].
  rewrite (dict_phi_totient d n Hfact).
  pose proof (NatBridge.totientZ_pos n ltac:(lia)) as Hpos.
  rewrite (NatBridge.totientZ_count n Hn) in *. unfold coprime_count in *.
  pose proof (range_length 1 n) as Hlen.
  split.
  - split; [lia|].
    pose proof (filter_length_le (fun d => Z.gcd d n =? 1) (range 1 n)). lia.
  - intros Hp. rewrite filter_all; [lia|].
    intros x Hx. apply range_in in Hx. apply Z.eqb_eq.
    rewrite Z.gcd_comm. apply Z.coprime_prime_small; assumption.
Qed.

Lemma phi_bounds_witness :
  exists r,
    ModRing_new 0 997 997 = Return r /\
    1 <= ModRing.phi (obj r) <= 997 - 1 /\
    (Z.prime 997 -> ModRing.phi (obj r) = 997 - 1).
Proof. apply (phi_bounds 0 997 997); simpl; lia. Defined.

(** X16: add, subtract, multiply and floor-divide raise the assertion on
    the operand's type, before looking at its ring, when the operand is not
    an element; this is what happens to a product with a power that came
    back as None. *)
Theorem operators_reject_non_elements (fuel : nat) (x : ModInt.t)
    (other : ModInt.operand) :
  is_ModInt other = false ->
  ModInt.__add__ x other = Raise (AssertionError None) /\
  ModInt.__sub__ x other = Raise (AssertionError None) /\
  ModInt.__mul__ x other = Raise (AssertionError None) /\
  ModInt.__floordiv__ fuel x other = Raise (AssertionError None).
Proof.
  intros Hother. destruct other as [y|z|]; [discriminate| |]; repeat split.
Qed.

Lemma operators_reject_non_elements_witness :
  ModInt.__add__ (mint {| addr := 0; obj := ModRing.mk 12 [(2, 2); (3, 1)] 4 |} 6)
    ModInt.None_ = Raise (AssertionError None) /\
  ModInt.__sub__ (mint {| addr := 0; obj := ModRing.mk 12 [(2, 2); (3, 1)] 4 |} 6)
    ModInt.None_ = Raise (AssertionError None) /\
  ModInt.__mul__ (mint {| addr := 0; obj := ModRing.mk 12 [(2, 2); (3, 1)] 4 |} 6)
    ModInt.None_ = Raise (AssertionError None) /\
  ModInt.__floordiv__ 12
    (mint {| addr := 0; obj := ModRing.mk 12 [(2, 2); (3, 1)] 4 |} 6)
    ModInt.None_ = Raise (AssertionError None).
Proof.
  apply (operators_reject_non_elements 12
           (mint {| addr := 0; obj := ModRing.mk 12 [(2, 2); (3, 1)] 4 |} 6)
           ModInt.None_).
  reflexivity.
Defined.
